(** * The RPA plugin of the Juggernaut bot backend: task registry and run controller

    A shallow embedding of [src/plugins/rpa_plugin.py].  The module keeps two
    dictionaries, [tasks] and [results]; [create_task], [get_task],
    [execute_task], [get_task_status] and [get_task_result] are the request
    handlers and [run_automation] is the coroutine that drives a Playwright
    page through the steps of a task.

    - Python dictionaries are [gmap]s; a step is a [Dict[str, Any]].
    - The list of steps of a task is a shared object: [run_automation] writes
      ["result"] entries into its dictionaries and then stores the very same
      list in [results].  It lives in a heap cell and both dictionaries hold
      its location.
    - Playwright (and [asyncio.sleep]) is an external provider: every call
      either returns or raises, and changes the state of the outside world.
    - Exceptions are values; [run_automation] is written in a state and
      exception monad.  An exception that is not an [Exception], as the
      cancellation of a task is, passes the [except] clause.
    - A run taken in one piece is what the registry properties need.  For
      what a poll can read while a run is in progress, [run_automation] is
      written a second time as a coroutine, which the event loop resumes
      from one [await] to the next, requests being served in between. *)

From Stdlib Require Import QArith Ascii.
From stdpp Require Import gmap strings list fin_maps pretty sorting.

Open Scope string_scope.
Open Scope list_scope.
Set Warnings "-register-all".

(** ** Python values *)

(** What a JSON body can put under a key of a step ([Any]).  A number with a
    fraction is kept as the rational it denotes. *)
Inductive val : Type :=
| VNone
| VBool (b : bool)
| VInt (z : Z)
| VFloat (q : Q)
| VStr (s : string)
| VList (l : list val)
| VDict (kvs : list (string * val)).

(** A step, [Dict[str, Any]]. *)
Abbreviation dict := (gmap string val).

(** Exceptions raised while a run is in progress.  [ProviderError] stands for
    the errors of Playwright, which derive from [Exception], as the built-in
    ones before it do.  [CancelledError] is [asyncio.CancelledError], thrown
    into a coroutine at the [await] it is suspended at when its task is
    cancelled (as the event loop does with the runs still in progress when it
    shuts down); it derives from [BaseException] and not from [Exception]. *)
Inductive exn : Type :=
| KeyError (key : string)
| ValueError (msg : string)
| TypeError (msg : string)
| AttributeError (msg : string)
| ProviderError (msg : string)
| CancelledError.

(** [isinstance(e, Exception)] *)
Definition is_exception (e : exn) : bool :=
  match e with
  | CancelledError => false
  | _ => true
  end.

(** [repr] of a string without quotes, backslashes or control characters. *)
Definition repr (s : string) : string := "'" +:+ s +:+ "'".

(** [str(e)] *)
Definition str (e : exn) : string :=
  match e with
  | KeyError k => repr k
  | ValueError m => m
  | TypeError m => m
  | AttributeError m => m
  | ProviderError m => m
  | CancelledError => EmptyString
  end.

Inductive res (A : Type) : Type :=
| Ok (a : A)
| Raise (e : exn).
Arguments Ok {A} a.
Arguments Raise {A} e.

(** [type(v).__name__] *)
Definition type_name (v : val) : string :=
  match v with
  | VNone => "NoneType"
  | VBool _ => "bool"
  | VInt _ => "int"
  | VFloat _ => "float"
  | VStr _ => "str"
  | VList _ => "list"
  | VDict _ => "dict"
  end.

(** A [string] holds the UTF-8 encoding of a Python [str].  A byte
    [10xxxxxx] goes on the character begun before it. *)
Definition is_continuation (c : Ascii.ascii) : bool :=
  bool_decide (128 ≤ Ascii.nat_of_ascii c < 192)%nat.

(** [s] begins in the middle of a character. *)
Definition goes_on (s : string) : bool :=
  match s with
  | String c _ => is_continuation c
  | EmptyString => false
  end.

(** The characters of a string, each with all its bytes. *)
Fixpoint code_points (s : string) : list string :=
  match s with
  | EmptyString => []
  | String c s' =>
      match code_points s' with
      | p :: ps =>
          if goes_on s' then String c p :: ps else String c EmptyString :: p :: ps
      | [] => [String c EmptyString]
      end
  end.

(** [iter(s)] for a string: its characters, as strings of length one. *)
Definition chars (s : string) : list val := VStr <$> code_points s.

(** The elements [iter(v)] yields, when [v] is iterable. *)
Definition iterate (v : val) : option (list val) :=
  match v with
  | VList l => Some l
  | VStr s => Some (chars s)
  | VDict kvs => Some (VStr <$> kvs.*1)
  | _ => None
  end.

(** [x, y = v] *)
Definition unpack2 (v : val) : res (val * val) :=
  match iterate v with
  | None => Raise (TypeError ("cannot unpack non-iterable " +:+ type_name v +:+ " object"))
  | Some [x; y] => Ok (x, y)
  | Some l =>
      if decide (length l < 2)%nat
      then Raise (ValueError ("not enough values to unpack (expected 2, got "
                              +:+ pretty (length l) +:+ ")"))
      else Raise (ValueError "too many values to unpack (expected 2)")
  end.

(** [step[key]] *)
Definition getitem (step : dict) (key : string) : res val :=
  match step !! key with
  | Some v => Ok v
  | None => Raise (KeyError key)
  end.

(** [step.get(key)] *)
Definition get (step : dict) (key : string) : val := default VNone (step !! key).

(** [key in step] *)
Definition contains (step : dict) (key : string) : bool := bool_decide (is_Some (step !! key)).

(** [step.get("type") == kind] *)
Definition step_type_is (step : dict) (kind : string) : bool :=
  match step !! "type" with
  | Some (VStr s) => bool_decide (s = kind)
  | _ => false
  end.

(** ** [base64.b64encode(...).decode('utf-8')] *)

Definition b64_alphabet : string :=
  "ABCDEFGHIJKLMNOPQRSTUVWXYZabcdefghijklmnopqrstuvwxyz0123456789+/".

Definition b64_digit (n : N) : string :=
  match String.get (N.to_nat (n mod 64)) b64_alphabet with
  | Some c => String c EmptyString
  | None => EmptyString
  end.

Fixpoint b64encode (bs : list Byte.byte) : string :=
  match bs with
  | [] => ""
  | [a] =>
      let n := (Byte.to_N a * 65536)%N in
      b64_digit (n / 262144) +:+ b64_digit (n / 4096) +:+ "=="
  | [a; b] =>
      let n := (Byte.to_N a * 65536 + Byte.to_N b * 256)%N in
      b64_digit (n / 262144) +:+ b64_digit (n / 4096) +:+ b64_digit (n / 64) +:+ "="
  | a :: b :: c :: rest =>
      let n := (Byte.to_N a * 65536 + Byte.to_N b * 256 + Byte.to_N c)%N in
      b64_digit (n / 262144) +:+ b64_digit (n / 4096) +:+ b64_digit (n / 64)
        +:+ b64_digit n +:+ b64encode rest
  end.

(** ** The registry *)

(** [TaskConfig], the validated body of a creation request. *)
Record TaskConfig : Type := {
  name : string;
  description : string;
  target_url : option string;
  steps : list dict;
  schedule : option (list (string * val))
}.

Abbreviation loc := nat.

(** An entry of [tasks]: [task_config.dict()].  The list under ["steps"] is
    an object of its own, at [task_steps] in the heap. *)
Record task : Type := {
  task_name : string;
  task_description : string;
  task_target_url : option string;
  task_steps : loc;
  task_schedule : option (list (string * val))
}.

(** An entry of [results]: [{"result": {"steps": <the list at l>}}] or
    [{"error": msg}]. *)
Inductive result_entry : Type :=
| ResultSteps (l : loc)
| ResultError (msg : string).

Record store : Type := {
  tasks : gmap string task;
  results : gmap string result_entry;
  heap : gmap loc (list dict)
}.

Definition empty_store : store := {| tasks := ∅; results := ∅; heap := ∅ |}.

(** The list object at [l]. *)
Definition deref (σ : store) (l : loc) : list dict := default [] (heap σ !! l).

(** [results[task_id].get("error")] and [results[task_id].get("result")] *)
Definition entry_error (r : result_entry) : option string :=
  match r with
  | ResultSteps _ => None
  | ResultError msg => Some msg
  end.

Definition entry_result (σ : store) (r : result_entry) : option (list dict) :=
  match r with
  | ResultSteps l => Some (deref σ l)
  | ResultError _ => None
  end.

(** ** Responses *)

Inductive http_error : Type :=
| HTTPException (status_code : nat) (detail : string).

Definition HTTP_404_NOT_FOUND : nat := 404.

Record Created : Type := { created_task_id : string; created_status : string }.

(** [{"id": task_id, **tasks[task_id]}] *)
Record TaskView : Type := {
  view_id : string;
  view_name : string;
  view_description : string;
  view_target_url : option string;
  view_steps : list dict;
  view_schedule : option (list (string * val))
}.

Record TaskStatus : Type := {
  status_task_id : string;
  status : string;
  progress : option Q;
  message : option string
}.

(** [result] is the list under ["steps"] of the result dictionary. *)
Record TaskResult : Type := {
  result_task_id : string;
  result_status : string;
  result : option (list dict);
  error : option string
}.

(** [step["result"] = v] on the dictionary at index [i] of the list at [l] *)
Definition put_result (l : loc) (i : nat) (v : val) (σ : store) : store :=
  {| tasks := tasks σ;
     results := results σ;
     heap := alter (alter (<["result" := v]>) i) l (heap σ) |}.

(** [results[task_id] = r] *)
Definition put_entry (task_id : string) (r : result_entry) (σ : store) : store :=
  {| tasks := tasks σ;
     results := <[task_id := r]> (results σ);
     heap := heap σ |}.

(** ** Request handlers *)

Definition create_task (task_config : TaskConfig) (σ : store) : Created * store :=
  let task_id := "task_" +:+ pretty (size (tasks σ) + 1)%nat in
  let l := fresh (dom (heap σ)) in
  ({| created_task_id := task_id; created_status := "created" |},
   {| tasks := <[task_id := {| task_name := name task_config;
                               task_description := description task_config;
                               task_target_url := target_url task_config;
                               task_steps := l;
                               task_schedule := schedule task_config |}]> (tasks σ);
      results := results σ;
      heap := <[l := steps task_config]> (heap σ) |}).

Definition not_found (task_id : string) : http_error :=
  HTTPException HTTP_404_NOT_FOUND ("Task with id " +:+ task_id +:+ " not found").

Definition get_task (task_id : string) (σ : store) : http_error + TaskView :=
  match tasks σ !! task_id with
  | None => inl (not_found task_id)
  | Some t =>
      inr {| view_id := task_id;
             view_name := task_name t;
             view_description := task_description t;
             view_target_url := task_target_url t;
             view_steps := deref σ (task_steps t);
             view_schedule := task_schedule t |}
  end.

(** [execute_task] changes no dictionary; when it answers, a
    [run_automation(task_id)] coroutine has been handed to the event loop
    (see [handle] below). *)
Definition execute_task (task_id : string) (σ : store) : http_error + TaskStatus :=
  match tasks σ !! task_id with
  | None => inl (not_found task_id)
  | Some _ =>
      inr {| status_task_id := task_id;
             status := "running";
             progress := Some 0%Q;
             message := Some "Task execution started" |}
  end.

Definition get_task_status (task_id : string) (σ : store) : http_error + TaskStatus :=
  match tasks σ !! task_id with
  | None => inl (not_found task_id)
  | Some _ =>
      match results σ !! task_id with
      | Some r =>
          let status_value :=
            match entry_error r with None => "completed" | Some _ => "failed" end in
          inr {| status_task_id := task_id;
                 status := status_value;
                 progress := Some 1%Q;
                 message := if bool_decide (status_value = "completed")
                            then Some "Task execution completed"
                            else entry_error r |}
      | None =>
          inr {| status_task_id := task_id;
                 status := "running";
                 progress := Some (1 # 2)%Q;
                 message := Some "Task is still running" |}
      end
  end.

Definition get_task_result (task_id : string) (σ : store) : http_error + TaskResult :=
  match tasks σ !! task_id with
  | None => inl (not_found task_id)
  | Some _ =>
      match results σ !! task_id with
      | None =>
          inl (HTTPException HTTP_404_NOT_FOUND
                 ("Results for task " +:+ task_id +:+ " not found. Task may still be running."))
      | Some r =>
          inr {| result_task_id := task_id;
                 result_status :=
                   match entry_error r with None => "completed" | Some _ => "failed" end;
                 result := entry_result σ r;
                 error := entry_error r |}
      end
  end.

(** ** The browser automation provider *)

(** An element handle. *)
Abbreviation element := nat.

(** The awaited calls of [run_automation], indexed by what they return.  One
    run owns one Playwright instance, browser, context and page, so the
    handles are left implicit. *)
Inductive call : Type → Type :=
| AsyncPlaywright : call ()                 (* pw.async_playwright().__aenter__() *)
| PlaywrightStop : call ()                  (* its __aexit__ *)
| ChromiumLaunch : call ()                  (* playwright.chromium.launch(headless=True) *)
| NewContext : call ()                      (* browser.new_context() *)
| NewPage : call ()                         (* context.new_page() *)
| Goto (url : val) : call ()                (* page.goto(url) *)
| Click (selector : val) : call ()          (* page.click(selector) *)
| MouseClick (x y : val) : call ()          (* page.mouse.click(x, y) *)
| Fill (selector text : val) : call ()      (* page.fill(selector, text) *)
| SelectOption (selector value : val) : call ()  (* page.select_option(selector, value=value) *)
| Sleep (time : val) : call ()              (* asyncio.sleep(time) *)
| WaitForSelector (selector : val) : call ()     (* page.wait_for_selector(selector) *)
| Screenshot : call (list Byte.byte)        (* page.screenshot() *)
| QuerySelector (selector : val) : call (option element)  (* page.query_selector(selector) *)
| XPath (xpath : val) : call (list element) (* page.xpath(xpath) *)
| TextContent (e : element) : call (option string)       (* element.text_content() *)
| BrowserClose : call ().                   (* browser.close() *)

(** The outside world in state [w] answers a call with a value or an
    exception and moves on. *)
Class Provider (W : Type) : Type :=
  perform : ∀ {R : Type}, call R → W → res R * W.

Section run.
Context {W : Type} `{!Provider W}.

(** ** State and exception monad *)

Definition M (A : Type) : Type := store * W → res A * (store * W).

Definition ret {A} (a : A) : M A := λ s, (Ok a, s).

Definition bind {A B} (m : M A) (k : A → M B) : M B :=
  λ s, match m s with
       | (Ok a, s') => k a s'
       | (Raise e, s') => (Raise e, s')
       end.

Notation "x <- m ; k" := (bind m (λ x, k))
  (at level 100, m at next level, right associativity, only parsing).
Notation "m ;; k" := (bind m (λ _, k))
  (at level 100, right associativity, only parsing).

(** a pure computation that may raise *)
Definition lift {A} (r : res A) : M A := λ s, (r, s).

(** [await c] *)
Definition await {R} (c : call R) : M R :=
  λ s, let '(r, w') := perform c s.2 in (r, (s.1, w')).

(** [try: m except Exception as e: h e].  An exception that is not an
    [Exception] is none of the clause and goes on. *)
Definition try_except {A} (m : M A) (h : exn → M A) : M A :=
  λ s, match m s with
       | (Ok a, s') => (Ok a, s')
       | (Raise e, s') => if is_exception e then h e s' else (Raise e, s')
       end.

(** [async with pw.async_playwright() as playwright: body].  The exit runs
    on both ways out of [body]; an exception of the exit replaces the
    outcome of [body]. *)
Definition async_with_playwright {A} (body : M A) : M A :=
  await AsyncPlaywright ;;
  λ s, let '(r, s') := body s in
       match await PlaywrightStop s' with
       | (Ok _, s'') => (r, s'')
       | (Raise e, s'') => (Raise e, s'')
       end.

(** [tasks[task_id]] *)
Definition lookup_task (task_id : string) : M task :=
  λ s, match tasks s.1 !! task_id with
       | Some t => (Ok t, s)
       | None => (Raise (KeyError task_id), s)
       end.

(** the list object at [l], as it is now *)
Definition load (l : loc) : M (list dict) := λ s, (Ok (deref s.1 l), s).

(** [step["result"] = v], for the step at index [i] of the list at [l] *)
Definition set_result (l : loc) (i : nat) (v : val) : M () :=
  λ s, (Ok (), (put_result l i v s.1, s.2)).

(** [results[task_id] = r] *)
Definition store_result (task_id : string) (r : result_entry) : M () :=
  λ s, (Ok (), (put_entry task_id r s.1, s.2)).

(** ** The run controller *)

(** [for element in elements: texts.append(await element.text_content())] *)
Fixpoint text_contents (elements : list element) : M (list val) :=
  match elements with
  | [] => ret []
  | e :: rest =>
      text <- await (TextContent e);
      texts <- text_contents rest;
      ret (from_option VStr VNone text :: texts)
  end.

(** One iteration of the loop over the steps: [step] is the dictionary at
    index [i] of the list at [l]. *)
Definition exec_step (l : loc) (i : nat) (step : dict) : M () :=
  if step_type_is step "navigate" then
    url <- lift (getitem step "url");
    await (Goto url)
  else if step_type_is step "click" then
    if contains step "selector" then
      selector <- lift (getitem step "selector");
      await (Click selector)
    else if contains step "coordinates" then
      coordinates <- lift (getitem step "coordinates");
      xy <- lift (unpack2 coordinates);
      await (MouseClick xy.1 xy.2)
    else ret ()
  else if step_type_is step "type" then
    selector <- lift (getitem step "selector");
    text <- lift (getitem step "text");
    await (Fill selector text)
  else if step_type_is step "select" then
    selector <- lift (getitem step "selector");
    await (SelectOption selector (get step "value"))
  else if step_type_is step "wait" then
    if contains step "time" then
      time <- lift (getitem step "time");
      await (Sleep time)
    else if contains step "selector" then
      selector <- lift (getitem step "selector");
      await (WaitForSelector selector)
    else ret ()
  else if step_type_is step "screenshot" then
    screenshot <- await Screenshot;
    let encoded_image := b64encode screenshot in
    set_result l i (VDict [("screenshot", VStr encoded_image)])
  else if step_type_is step "extract" then
    if contains step "selector" then
      selector <- lift (getitem step "selector");
      element <- await (QuerySelector selector);
      match element with
      | Some e =>
          text <- await (TextContent e);
          set_result l i (VDict [("text", from_option VStr VNone text)])
      | None => ret ()
      end
    else if contains step "xpath" then
      xpath <- lift (getitem step "xpath");
      elements <- await (XPath xpath);
      match elements with
      | _ :: _ =>
          texts <- text_contents elements;
          set_result l i (VDict [("texts", VList texts)])
      | [] => ret ()
      end
    else ret ()
  else ret ().

(** [for step in task["steps"]: ...], from index [i] on *)
Fixpoint for_steps (l : loc) (i : nat) (steps : list dict) : M () :=
  match steps with
  | [] => ret ()
  | step :: rest => exec_step l i step;; for_steps l (S i) rest
  end.

(** [if task.get("target_url")] *)
Definition truthy (url : option string) : bool :=
  match url with
  | Some (String _ _) => true
  | _ => false
  end.

(** The session is set up and the page sent to the target URL. *)
Definition open_page (t : task) : M () :=
  await ChromiumLaunch;;
  await NewContext;;
  await NewPage;;
  if truthy (task_target_url t)
  then await (Goto (from_option VStr VNone (task_target_url t)))
  else ret ().


(** The body of the [try]. *)
Definition automation (task_id : string) (t : task) : M () :=
  async_with_playwright (
    open_page t;;
    steps <- load (task_steps t);
    for_steps (task_steps t) 0 steps;;
    await BrowserClose;;
    store_result task_id (ResultSteps (task_steps t))).

Definition run_automation (task_id : string) : M () :=
  t <- lookup_task task_id;
  try_except (automation task_id t)
             (λ e, store_result task_id (ResultError (str e))).

End run.

(** ** The event loop *)

(** The process: the two dictionaries (and the heap), and the
    [run_automation] coroutines that [asyncio.create_task] has started and
    that have not returned yet, by task identifier, oldest first. *)
Record process : Type := {
  registry : store;
  running : list string
}.

Definition startup : process := {| registry := empty_store; running := [] |}.

Section loop.
Context {W : Type} `{!Provider W}.

(** What happens in the process: a request is served, or the run at
    position [k] of [running] goes through to its end against an outside
    world in state [w].  The body of a run is taken in one piece: requests
    are served before or after it. *)
Inductive event : Type :=
| CreateTask (task_config : TaskConfig)
| GetTask (task_id : string)
| ExecuteTask (task_id : string)
| GetTaskStatus (task_id : string)
| GetTaskResult (task_id : string)
| RunEnds (k : nat) (w : W).

Inductive response : Type :=
| TaskCreated (c : Created)
| TaskFound (r : http_error + TaskView)
| ExecuteAnswer (r : http_error + TaskStatus)
| StatusAnswer (r : http_error + TaskStatus)
| ResultAnswer (r : http_error + TaskResult)
| RunEnded (task_id : string) (r : res ())
| Idle.

Definition handle (p : process) (ev : event) : response * process :=
  match ev with
  | CreateTask task_config =>
      let '(c, σ) := create_task task_config (registry p) in
      (TaskCreated c, {| registry := σ; running := running p |})
  | GetTask task_id => (TaskFound (get_task task_id (registry p)), p)
  | ExecuteTask task_id =>
      let r := execute_task task_id (registry p) in
      (ExecuteAnswer r,
       match r with
       | inl _ => p
       | inr _ => {| registry := registry p; running := running p ++ [task_id] |}
       end)
  | GetTaskStatus task_id => (StatusAnswer (get_task_status task_id (registry p)), p)
  | GetTaskResult task_id => (ResultAnswer (get_task_result task_id (registry p)), p)
  | RunEnds k w =>
      match running p !! k with
      | None => (Idle, p)
      | Some task_id =>
          let '(r, s) := run_automation task_id (registry p, w) in
          (RunEnded task_id r, {| registry := s.1; running := delete k (running p) |})
      end
  end.

(** The answers to a sequence of events, and the process after them. *)
Fixpoint serve (p : process) (evs : list event) : list response * process :=
  match evs with
  | [] => ([], p)
  | ev :: rest =>
      let '(r, p') := handle p ev in
      let '(rs, p'') := serve p' rest in
      (r :: rs, p'')
  end.

Definition reachable (p : process) : Prop := ∃ evs, (serve startup evs).2 = p.

(** The identifiers handed out by the creations among [rs]. *)
Definition assigned (rs : list response) : list string :=
  omap (λ r, match r with TaskCreated c => Some (created_task_id c) | _ => None end) rs.

(** The progress values in the answers to the status polls of [task_id]. *)
Definition polled (task_id : string) (rs : list response) : list Q :=
  omap (λ r, match r with
             | StatusAnswer (inr st) =>
                 if bool_decide (status_task_id st = task_id) then progress st else None
             | _ => None
             end) rs.

(** The tasks whose runs have ended among [rs]. *)
Definition ended (rs : list response) : list string :=
  omap (λ r, match r with RunEnded task_id _ => Some task_id | _ => None end) rs.

End loop.

(** ** The run as a coroutine

    [run_automation] is a coroutine.  At each [await] it hands control back
    to the event loop, which may serve requests and resume other runs before
    it resumes this one; between two awaits it runs in one piece.  Here the
    run is written once more, as the tree of its awaits, so that a process
    can be followed from one await to the next. *)

Module coroutine.

(** A coroutine that returns an [A]: it is done, with a value or an
    exception; or it awaits a call and goes on with the answer, a value or
    an exception thrown into it; or it reads the dictionaries; or it writes
    to them. *)
Inductive prog (A : Type) : Type :=
| Done (r : res A)
| Await {R : Type} (c : call R) (k : res R → prog A)
| Read (k : store → prog A)
| Update (f : store → store) (k : prog A).
Arguments Done {A} r.
Arguments Await {A R} c k.
Arguments Read {A} k.
Arguments Update {A} f k.

Section programs.

Definition ret {A} (a : A) : prog A := Done (Ok a).

Fixpoint bind {A B} (m : prog A) (k : A → prog B) : prog B :=
  match m with
  | Done (Ok a) => k a
  | Done (Raise e) => Done (Raise e)
  | Await c k' => Await c (λ r, bind (k' r) k)
  | Read k' => Read (λ σ, bind (k' σ) k)
  | Update f k' => Update f (bind k' k)
  end.

Notation "x <- m ; k" := (bind m (λ x, k))
  (at level 100, m at next level, right associativity, only parsing).
Notation "m ;; k" := (bind m (λ _, k))
  (at level 100, right associativity, only parsing).

Definition lift {A} (r : res A) : prog A := Done r.

(** [await c] *)
Definition await {R} (c : call R) : prog R := Await c Done.

(** [try: m except Exception as e: h e] *)
Fixpoint try_except {A} (m : prog A) (h : exn → prog A) : prog A :=
  match m with
  | Done (Ok a) => Done (Ok a)
  | Done (Raise e) => if is_exception e then h e else Done (Raise e)
  | Await c k => Await c (λ r, try_except (k r) h)
  | Read k => Read (λ σ, try_except (k σ) h)
  | Update f k => Update f (try_except k h)
  end.

(** The exit of the [async with] on both ways out of [body]; its exception
    replaces the outcome of [body]. *)
Fixpoint on_exit {A} (body : prog A) : prog A :=
  match body with
  | Done r =>
      Await PlaywrightStop (λ r', match r' with
                                  | Ok _ => Done r
                                  | Raise e => Done (Raise e)
                                  end)
  | Await c k => Await c (λ r, on_exit (k r))
  | Read k => Read (λ σ, on_exit (k σ))
  | Update f k => Update f (on_exit k)
  end.

(** [async with pw.async_playwright() as playwright: body] *)
Definition async_with_playwright {A} (body : prog A) : prog A :=
  await AsyncPlaywright ;; on_exit body.

(** [tasks[task_id]] *)
Definition lookup_task (task_id : string) : prog task :=
  Read (λ σ, match tasks σ !! task_id with
             | Some t => Done (Ok t)
             | None => Done (Raise (KeyError task_id))
             end).

Definition load (l : loc) : prog (list dict) := Read (λ σ, Done (Ok (deref σ l))).

(** [step["result"] = v], for the step at index [i] of the list at [l] *)
Definition set_result (l : loc) (i : nat) (v : val) : prog () :=
  Update (put_result l i v) (Done (Ok ())).

(** [results[task_id] = r] *)
Definition store_result (task_id : string) (r : result_entry) : prog () :=
  Update (put_entry task_id r) (Done (Ok ())).

Fixpoint text_contents (elements : list element) : prog (list val) :=
  match elements with
  | [] => ret []
  | e :: rest =>
      text <- await (TextContent e);
      texts <- text_contents rest;
      ret (from_option VStr VNone text :: texts)
  end.

Definition exec_step (l : loc) (i : nat) (step : dict) : prog () :=
  if step_type_is step "navigate" then
    url <- lift (getitem step "url");
    await (Goto url)
  else if step_type_is step "click" then
    if contains step "selector" then
      selector <- lift (getitem step "selector");
      await (Click selector)
    else if contains step "coordinates" then
      coordinates <- lift (getitem step "coordinates");
      xy <- lift (unpack2 coordinates);
      await (MouseClick xy.1 xy.2)
    else ret ()
  else if step_type_is step "type" then
    selector <- lift (getitem step "selector");
    text <- lift (getitem step "text");
    await (Fill selector text)
  else if step_type_is step "select" then
    selector <- lift (getitem step "selector");
    await (SelectOption selector (get step "value"))
  else if step_type_is step "wait" then
    if contains step "time" then
      time <- lift (getitem step "time");
      await (Sleep time)
    else if contains step "selector" then
      selector <- lift (getitem step "selector");
      await (WaitForSelector selector)
    else ret ()
  else if step_type_is step "screenshot" then
    screenshot <- await Screenshot;
    let encoded_image := b64encode screenshot in
    set_result l i (VDict [("screenshot", VStr encoded_image)])
  else if step_type_is step "extract" then
    if contains step "selector" then
      selector <- lift (getitem step "selector");
      element <- await (QuerySelector selector);
      match element with
      | Some e =>
          text <- await (TextContent e);
          set_result l i (VDict [("text", from_option VStr VNone text)])
      | None => ret ()
      end
    else if contains step "xpath" then
      xpath <- lift (getitem step "xpath");
      elements <- await (XPath xpath);
      match elements with
      | _ :: _ =>
          texts <- text_contents elements;
          set_result l i (VDict [("texts", VList texts)])
      | [] => ret ()
      end
    else ret ()
  else ret ().

Fixpoint for_steps (l : loc) (i : nat) (steps : list dict) : prog () :=
  match steps with
  | [] => ret ()
  | step :: rest => exec_step l i step;; for_steps l (S i) rest
  end.

Definition open_page (t : task) : prog () :=
  await ChromiumLaunch;;
  await NewContext;;
  await NewPage;;
  if truthy (task_target_url t)
  then await (Goto (from_option VStr VNone (task_target_url t)))
  else ret ().

Definition automation (task_id : string) (t : task) : prog () :=
  async_with_playwright (
    open_page t;;
    steps <- load (task_steps t);
    for_steps (task_steps t) 0 steps;;
    await BrowserClose;;
    store_result task_id (ResultSteps (task_steps t))).

Definition run_automation (task_id : string) : prog () :=
  t <- lookup_task task_id;
  try_except (automation task_id t)
             (λ e, store_result task_id (ResultError (str e))).

(** A coroutine runs on by itself as long as it does not await. *)
Fixpoint advance {A} (c : prog A) (σ : store) : prog A * store :=
  match c with
  | Read k => advance (k σ) σ
  | Update f k => advance k (f σ)
  | _ => (c, σ)
  end.

End programs.

Section loop.
Context {W : Type} `{!Provider W}.

(** The coroutine run from beginning to end with nothing in between, the
    calls being answered by the world as it goes from the state [s.2]. *)
Fixpoint interp {A} (c : prog A) (s : store * W) : res A * (store * W) :=
  match c with
  | Done r => (r, s)
  | Await call k => let '(r, w') := perform call s.2 in interp (k r) (s.1, w')
  | Read k => interp (k s.1) s
  | Update f k => interp k (f s.1, s.2)
  end.

(** The event loop resumes a coroutine: the call it awaits is answered as
    the world in state [w] answers it, and the coroutine runs on to its next
    await or to its end.  A coroutine that has not started yet runs to its
    first await. *)
Definition resume {A} (c : prog A) (w : W) (σ : store) : prog A * store :=
  match c with
  | Await call k => advance (k (perform call w).1) σ
  | _ => advance c σ
  end.

(** The worlds in which the awaits of [c] are answered when it runs with
    nothing in between. *)
Fixpoint worlds {A} (c : prog A) (s : store * W) : list W :=
  match c with
  | Done _ => []
  | Await call k => s.2 :: let '(r, w') := perform call s.2 in worlds (k r) (s.1, w')
  | Read k => worlds (k s.1) s
  | Update f k => worlds k (f s.1, s.2)
  end.

(** The process: the dictionaries, and the runs that [asyncio.create_task]
    has handed to the event loop and that are not over, each with what is
    left of it, oldest first. *)
Record process : Type := {
  registry : store;
  suspended : list (string * prog ())
}.

Definition startup : process := {| registry := empty_store; suspended := [] |}.

(** What happens in the process: a request is served, in one piece since no
    handler awaits, or the event loop resumes the run at position [k]. *)
Inductive tick : Type :=
| CreateTask (task_config : TaskConfig)
| GetTask (task_id : string)
| ExecuteTask (task_id : string)
| GetTaskStatus (task_id : string)
| GetTaskResult (task_id : string)
| Resume (k : nat) (w : W).

(** The answer [Idle] is that of a resumption after which the run is not
    over. *)
Definition handle (p : process) (t : tick) : response * process :=
  match t with
  | CreateTask task_config =>
      let '(c, σ) := create_task task_config (registry p) in
      (TaskCreated c, {| registry := σ; suspended := suspended p |})
  | GetTask task_id => (TaskFound (get_task task_id (registry p)), p)
  | ExecuteTask task_id =>
      let r := execute_task task_id (registry p) in
      (ExecuteAnswer r,
       match r with
       | inl _ => p
       | inr _ => {| registry := registry p;
                     suspended := suspended p ++ [(task_id, run_automation task_id)] |}
       end)
  | GetTaskStatus task_id => (StatusAnswer (get_task_status task_id (registry p)), p)
  | GetTaskResult task_id => (ResultAnswer (get_task_result task_id (registry p)), p)
  | Resume k w =>
      match suspended p !! k with
      | None => (Idle, p)
      | Some (task_id, c) =>
          let '(c', σ) := resume c w (registry p) in
          match c' with
          | Done r =>
              (RunEnded task_id r, {| registry := σ; suspended := delete k (suspended p) |})
          | _ =>
              (Idle, {| registry := σ; suspended := <[k := (task_id, c')]> (suspended p) |})
          end
      end
  end.

Fixpoint serve (p : process) (ticks : list tick) : list response * process :=
  match ticks with
  | [] => ([], p)
  | t :: rest =>
      let '(r, p') := handle p t in
      let '(rs, p'') := serve p' rest in
      (r :: rs, p'')
  end.

End loop.

(** A store that differs from another one in the steps and in the result of
    one task at most, no result being lost. *)
Definition keeps (task_id : string) (σ σ' : store) : Prop :=
  tasks σ' = tasks σ
  ∧ ∀ id, (is_Some (results σ !! id) → is_Some (results σ' !! id))
          ∧ (is_Some (results σ' !! id) → is_Some (results σ !! id) ∨ id = task_id).

(** A coroutine that writes no other result than that of [task_id]. *)
Fixpoint owned (task_id : string) {A} (c : prog A) : Prop :=
  match c with
  | Done _ => True
  | Await _ k => ∀ r, owned task_id (k r)
  | Read k => ∀ σ, owned task_id (k σ)
  | Update f k => (∀ σ, keeps task_id σ (f σ)) ∧ owned task_id k
  end.

(** A process whose results and runs are those of the tasks [ids]. *)
Definition in_hand (p : process) (ids : list string) : Prop :=
  (∀ id, is_Some (results (registry p) !! id) → id ∈ ids)
  ∧ ∀ id c, (id, c) ∈ suspended p → id ∈ ids ∧ owned id c.

End coroutine.

(** ** A page to run the examples against *)

(** A still page: the selectors in [absent] match nothing, every element
    reads [content], a screenshot gives [pixels].  As the [Page] of
    Playwright it has no method [xpath], and [asyncio.sleep] takes a number
    only. *)
Record page : Type := {
  absent : list string;
  content : string;
  pixels : list Byte.byte;
  close_fails : bool
}.

Definition matches (w : page) (selector : val) : bool :=
  match selector with
  | VStr s => bool_decide (s ∉ absent w)
  | _ => false
  end.

Definition on_target (w : page) (selector : val) : res () :=
  if matches w selector then Ok ()
  else Raise (ProviderError "Timeout 30000ms exceeded.").

Definition page_perform {R : Type} (c : call R) (w : page) : res R * page :=
  match c in call R return res R * page with
  | Click selector => (on_target w selector, w)
  | Fill selector _ => (on_target w selector, w)
  | SelectOption selector _ => (on_target w selector, w)
  | WaitForSelector selector => (on_target w selector, w)
  | Screenshot => (Ok (pixels w), w)
  | QuerySelector selector => (Ok (if matches w selector then Some 0%nat else None), w)
  | XPath _ => (Raise (AttributeError "'Page' object has no attribute 'xpath'"), w)
  | Sleep time =>
      (match time with
       | VBool _ | VInt _ | VFloat _ => Ok ()
       | _ => Raise (TypeError ("'<=' not supported between instances of '"
                                +:+ type_name time +:+ "' and 'int'"))
       end, w)
  | TextContent _ => (Ok (Some (content w)), w)
  | BrowserClose =>
      (if close_fails w then Raise (ProviderError "Target closed") else Ok (), w)
  | AsyncPlaywright | PlaywrightStop | ChromiumLaunch | NewContext | NewPage
  | Goto _ | MouseClick _ _ => (Ok (), w)
  end.

#[export] Instance page_provider : Provider page := @page_perform.

(** The page inside a session that may break: the exit of the
    [async with] may fail, and the task of the run may be cancelled while
    the run waits for a click. *)
Record browser : Type := {
  shown : page;
  stop_fails : bool;
  cancelled : bool
}.

Definition browser_perform {R : Type} (c : call R) (w : browser) : res R * browser :=
  match c in call R return res R * browser with
  | PlaywrightStop =>
      (if stop_fails w then Raise (ProviderError "Connection closed") else Ok (), w)
  | Click selector =>
      (if cancelled w then Raise CancelledError
       else (page_perform (Click selector) (shown w)).1, w)
  | c' => ((page_perform c' (shown w)).1, w)
  end.

#[export] Instance browser_provider : Provider browser := @browser_perform.

(** ** Examples *)

(** [{"type": "screenshot"}] *)
Definition screenshot_step : dict := {[ "type" := VStr "screenshot" ]}.

(** [{"type": "click", "selector": "#submit"}] *)
Definition click_submit : dict :=
  <["selector" := VStr "#submit"]> {[ "type" := VStr "click" ]}.

(** [{"type": "extract", "selector": "h1"}] *)
Definition extract_title : dict :=
  <["selector" := VStr "h1"]> {[ "type" := VStr "extract" ]}.

(** [{"type": "type", "selector": "#user", "text": "bob"}] *)
Definition type_user : dict :=
  <["text" := VStr "bob"]> (<["selector" := VStr "#user"]> {[ "type" := VStr "type" ]}).

(** [{"type": "navigate", "url": "https://example.com/login"}] *)
Definition navigate_login : dict :=
  <["url" := VStr "https://example.com/login"]> {[ "type" := VStr "navigate" ]}.

Definition task_of (name : string) (steps : list dict) : TaskConfig :=
  {| name := name; description := ""; target_url := None; steps := steps; schedule := None |}.

Definition login : TaskConfig := task_of "login" [navigate_login; type_user; click_submit].

(** A page on which everything is found. *)
Definition full_page : page :=
  {| absent := []; content := "Welcome"; pixels := [Byte.x66; Byte.x6f; Byte.x6f];
     close_fails := false |}.

(** The same page without its title and without its submit button. *)
Definition bare_page : page :=
  {| absent := ["h1"; "#submit"]; content := "Welcome";
     pixels := [Byte.x66; Byte.x6f; Byte.x6f]; close_fails := false |}.


(** A session in which all goes well, one whose task is cancelled at the
    click, one whose exit fails, and one in which the button is missing and
    the exit fails. *)
Definition sound_browser : browser :=
  {| shown := full_page; stop_fails := false; cancelled := false |}.


Definition leaking_browser : browser :=
  {| shown := full_page; stop_fails := true; cancelled := false |}.


(** The entry of [tasks] for a definition whose steps are at [l]. *)
Definition stored (task_config : TaskConfig) (l : loc) : task :=
  {| task_name := name task_config;
     task_description := description task_config;
     task_target_url := target_url task_config;
     task_steps := l;
     task_schedule := schedule task_config |}.

(** One screenshot, then a click on the submit button. *)
Definition shoot_and_submit : TaskConfig := task_of "submit" [screenshot_step; click_submit].

(** The title of the page. *)
Definition read_title : TaskConfig := task_of "title" [extract_title].

(** The store after the registration of one definition. *)
Definition registered (task_config : TaskConfig) : store :=
  (create_task task_config empty_store).2.

(** A screenshot, then the title of the page. *)
Definition shoot_and_read : TaskConfig := task_of "report" [screenshot_step; extract_title].

(** A single screenshot. *)
Definition shoot : TaskConfig := task_of "shot" [screenshot_step].

(** The identifier of the [n]-th task. *)
Definition nth_task_id (n : nat) : string := "task_" +:+ pretty n.

(** The answers of [execute_task] and of [get_task_status] for a task
    without a stored result. *)
Definition started (task_id : string) : TaskStatus :=
  {| status_task_id := task_id; status := "running"; progress := Some 0%Q;
     message := Some "Task execution started" |}.

Definition still_running (task_id : string) : TaskStatus :=
  {| status_task_id := task_id; status := "running"; progress := Some (1 # 2)%Q;
     message := Some "Task is still running" |}.

(** An extract step finds nothing in the world [w], which is then [w']:
    [query_selector] answers [None], or, without a selector, [xpath] answers
    the empty list. *)
Definition matches_nothing {W : Type} `{!Provider W} (step : dict) (w w' : W) : Prop :=
  (∃ selector, step !! "selector" = Some selector
               ∧ perform (QuerySelector selector) w = (Ok None, w'))
  ∨ (step !! "selector" = None
     ∧ ∃ xpath, step !! "xpath" = Some xpath ∧ perform (XPath xpath) w = (Ok [], w')).

(** The exception that leaves the [async with] block when [e] leaves its
    body in the world [w]: that of the exit, if the exit raises too. *)
Definition leaving {W : Type} `{!Provider W} (e : exn) (w : W) : exn :=
  match (perform PlaywrightStop w).1 with
  | Ok _ => e
  | Raise e' => e'
  end.

(** ** The results a run is to report

    What the specification calls the Step Result of a step, read off the
    answers of the provider and not off the store. *)

Section step_results.
Context {W : Type} `{!Provider W}.

(** The texts of [elements], read one after the other from the world [w]
    on; none if a reading raises. *)
Fixpoint read_texts (elements : list element) (w : W) : option (list val) :=
  match elements with
  | [] => Some []
  | e :: rest =>
      match perform (TextContent e) w with
      | (Ok text, w') => (from_option VStr VNone text ::.) <$> read_texts rest w'
      | (Raise _, _) => None
      end
  end.

(** The Step Result of [step] when its turn comes in the world [w]: for a
    screenshot step the image the page gives, encoded; for an extract step
    the text of the element its selector finds or, without a selector, the
    texts of the elements its XPath finds, if there is any; none for the
    other kinds of step, and none for a step that raises. *)
Definition step_result (step : dict) (w : W) : option val :=
  if step_type_is step "screenshot" then
    match perform Screenshot w with
    | (Ok bytes, _) => Some (VDict [("screenshot", VStr (b64encode bytes))])
    | (Raise _, _) => None
    end
  else if step_type_is step "extract" then
    match step !! "selector", step !! "xpath" with
    | Some selector, _ =>
        match perform (QuerySelector selector) w with
        | (Ok (Some e), w') =>
            match perform (TextContent e) w' with
            | (Ok text, _) => Some (VDict [("text", from_option VStr VNone text)])
            | (Raise _, _) => None
            end
        | _ => None
        end
    | None, Some xpath =>
        match perform (XPath xpath) w with
        | (Ok (e :: rest), w') =>
            (λ texts, VDict [("texts", VList texts)]) <$> read_texts (e :: rest) w'
        | _ => None
        end
    | None, None => None
    end
  else None.

(** A step as it is to be reported: with its Step Result under ["result"],
    if it has one, and as it stands otherwise. *)
Definition reported (step : dict) (w : W) : dict :=
  from_option (λ v, <["result" := v]> step) step (step_result step w).

(** The worlds in which the steps of the loop get their turn, one after the
    other, the loop starting in [s]. *)
Fixpoint turns (l : loc) (i : nat) (steps : list dict) (s : store * W) : list W :=
  match steps with
  | [] => []
  | step :: rest => s.2 :: turns l (S i) rest (exec_step l i step s).2
  end.

End step_results.

(** ** What runs and processes are measured by *)

(** [{"screenshot": encoded_image}] *)
Definition screenshot_result (v : val) : Prop :=
  ∃ bytes, v = VDict [("screenshot", VStr (b64encode bytes))].

(** [{"text": text}] or [{"texts": texts}], a text being a string or [None] *)
Definition extract_result (v : val) : Prop :=
  (∃ text : option string, v = VDict [("text", from_option VStr VNone text)])
  ∨ (∃ texts : list (option string),
       texts ≠ [] ∧ v = VDict [("texts", VList (from_option VStr VNone <$> texts))]).

(** The value, if any, that a step which went through has put under its
    ["result"] key. *)
Definition attaches (step : dict) (o : option val) : Prop :=
  if step_type_is step "screenshot" then ∃ v, o = Some v ∧ screenshot_result v
  else if step_type_is step "extract" then o = None ∨ ∃ v, o = Some v ∧ extract_result v
  else o = None.

Definition written (l : loc) (i : nat) (o : option val) (σ : store) : store :=
  from_option (λ v, put_result l i v σ) σ o.

(** A step of the definition and the same step after a run. *)
Definition attached (step step' : dict) : Prop :=
  ∃ o, attaches step o ∧ step' = from_option (λ v, <["result" := v]> step) step o.

Definition touched (step step' : dict) : Prop := step' = step ∨ attached step step'.

(** Only the list at [l] may differ between [σ] and [σ']. *)
Definition steps_only (l : loc) (σ σ' : store) : Prop :=
  tasks σ' = tasks σ ∧ results σ' = results σ
  ∧ (∀ l', l' ≠ l → heap σ' !! l' = heap σ !! l')
  ∧ (is_Some (heap σ' !! l) ↔ is_Some (heap σ !! l)).

(** A computation that leaves the dictionaries alone. *)
Definition silent {W A : Type} (m : M (W:=W) A) : Prop := ∀ s, (m s).2.1 = s.1.

(** A store in good order: the identifiers in use are among [task_1] ...
    [task_n] for the [n] stored tasks, results are kept for registered tasks
    only, and the steps of every task are in the heap. *)
Record well_formed (σ : store) : Prop := {
  wf_ids : ∀ n, is_Some (tasks σ !! ("task_" +:+ pretty n)) → (1 ≤ n ≤ size (tasks σ))%nat;
  wf_results : ∀ task_id, is_Some (results σ !! task_id) → is_Some (tasks σ !! task_id);
  wf_steps : ∀ task_id t, tasks σ !! task_id = Some t → is_Some (heap σ !! task_steps t)
}.

(** A process in good order: a well-formed store, and only registered tasks
    among the runs in progress. *)
Definition in_order (p : process) : Prop :=
  well_formed (registry p) ∧ ∀ task_id, task_id ∈ running p → is_Some (tasks (registry p) !! task_id).

(** A process with one task, its one run ended, and one with two tasks, a
    run of the first about to end. *)
Definition after_one_run : process :=
  (serve (W:=page) startup
     [CreateTask shoot_and_read; ExecuteTask "task_1"; RunEnds 0 full_page]).2.

Definition two_tasks : process :=
  (serve (W:=page) startup
     [CreateTask shoot_and_submit; CreateTask read_title; ExecuteTask "task_2";
      RunEnds 0 full_page; ExecuteTask "task_1"]).2.

(** ** The rest of the task registry *)

(** [{"id": task_id, **t}] *)
Definition task_view (σ : store) (task_id : string) (t : task) : TaskView :=
  {| view_id := task_id;
     view_name := task_name t;
     view_description := task_description t;
     view_target_url := task_target_url t;
     view_steps := deref σ (task_steps t);
     view_schedule := task_schedule t |}.

(** [get_tasks]: [[{"id": k, **v} for k, v in tasks.items()]].  The entries
    are those of the dictionary, one for each key; the order in which Python
    lists them, that of their insertion, is not recorded in a [gmap], and
    nothing below depends on the order of this list. *)
Definition get_tasks (σ : store) : list TaskView :=
  (λ kt, task_view σ kt.1 kt.2) <$> map_to_list (tasks σ).

(** The answer of [get_task_result] before a result is stored. *)
Definition result_not_found (task_id : string) : http_error :=
  HTTPException HTTP_404_NOT_FOUND
    ("Results for task " +:+ task_id +:+ " not found. Task may still be running.").

(** The tasks whose execution was accepted among [rs]. *)
Definition accepted (rs : list response) : list string :=
  omap (λ r, match r with
             | ExecuteAnswer (inr st) => Some (status_task_id st)
             | _ => None
             end) rs.

(** A step and the same step with another ["result"] entry, or with none. *)
Definition same_but_result (step step' : dict) : Prop :=
  delete "result" step' = delete "result" step.

(** Two readings of a definition that differ at most in the ["result"]
    entries of the steps. *)
Definition same_definition (v v' : TaskView) : Prop :=
  view_id v' = view_id v
  ∧ view_name v' = view_name v
  ∧ view_description v' = view_description v
  ∧ view_target_url v' = view_target_url v
  ∧ view_schedule v' = view_schedule v
  ∧ Forall2 same_but_result (view_steps v) (view_steps v').

(** A step on which [exec_step] has no branch to take: a kind that is none of
    the seven, or a click, wait or extract without any of its keys. *)
Definition no_branch (step : dict) : Prop :=
  (∀ kind, kind ∈ ["navigate"; "click"; "type"; "select"; "wait"; "screenshot"; "extract"] →
           step_type_is step kind = false)
  ∨ (step_type_is step "click" = true
     ∧ step !! "selector" = None ∧ step !! "coordinates" = None)
  ∨ (step_type_is step "wait" = true
     ∧ step !! "time" = None ∧ step !! "selector" = None)
  ∨ (step_type_is step "extract" = true
     ∧ step !! "selector" = None ∧ step !! "xpath" = None).

(** A step without a key that its branch of [exec_step] subscripts. *)
Definition lacks (step : dict) (key : string) : Prop :=
  (step_type_is step "navigate" = true ∧ key = "url" ∧ step !! "url" = None)
  ∨ (step_type_is step "type" = true ∧ key = "selector" ∧ step !! "selector" = None)
  ∨ (step_type_is step "type" = true ∧ key = "text"
     ∧ is_Some (step !! "selector") ∧ step !! "text" = None)
  ∨ (step_type_is step "select" = true ∧ key = "selector" ∧ step !! "selector" = None).

(** The characters of an encoded image. *)
Definition b64_characters : list Ascii.ascii :=
  String.list_ascii_of_string (b64_alphabet +:+ "=").

(** [{"type": "scroll"}], a kind [exec_step] does not know, and
    [{"type": "navigate"}], a navigation that names no URL. *)
Definition scroll_step : dict := {[ "type" := VStr "scroll" ]}.

Definition navigate_nowhere : dict := {[ "type" := VStr "navigate" ]}.

(** [{"type": "click", "coordinates": [10, 20]}] and
    [{"type": "extract", "xpath": "//li"}] *)
Definition click_at : dict :=
  <["coordinates" := VList [VInt 10; VInt 20]]> {[ "type" := VStr "click" ]}.

Definition extract_items : dict :=
  <["xpath" := VStr "//li"]> {[ "type" := VStr "extract" ]}.

(** A screenshot, then a navigation that names no URL. *)
Definition shoot_and_get_lost : TaskConfig :=
  task_of "lost" [screenshot_step; navigate_nowhere].

(** How the two dictionaries and the heap hang together in a process: the
    identifiers in use are [task_1] ... [task_n], no two tasks share their
    list of steps, and a stored result holds the list of its own task. *)
Record linked (σ : store) : Prop := {
  linked_ids : ∀ task_id,
    is_Some (tasks σ !! task_id)
    ↔ ∃ k, (1 ≤ k ≤ size (tasks σ))%nat ∧ task_id = nth_task_id k;
  linked_steps : ∀ a b ta tb,
    tasks σ !! a = Some ta → tasks σ !! b = Some tb → task_steps ta = task_steps tb → a = b;
  linked_results : ∀ task_id l,
    results σ !! task_id = Some (ResultSteps l) →
    ∃ t, tasks σ !! task_id = Some t ∧ task_steps t = l
}.

(** ** The API gateway plugin

    [src/plugins/api_gateway_plugin.py]: the registry [api_configs] of the
    gateway and its handlers.  None of them awaits, so each runs in one
    piece. *)

(** [s.replace(a, b)], [a] and [b] being single characters *)
Fixpoint replace (a b : Ascii.ascii) (s : string) : string :=
  match s with
  | EmptyString => EmptyString
  | String c s' => String (if decide (c = a) then b else c) (replace a b s')
  end.

(** [str.lower] on the letters A to Z; the other characters stay. *)
Definition ascii_lower_char (c : Ascii.ascii) : Ascii.ascii :=
  let n := Ascii.nat_of_ascii c in
  if decide (65 ≤ n ≤ 90)%nat then Ascii.ascii_of_nat (n + 32) else c.

Fixpoint ascii_lower (s : string) : string :=
  match s with
  | EmptyString => EmptyString
  | String c s' => String (ascii_lower_char c) (ascii_lower s')
  end.

(** A string of ASCII characters. *)
Definition is_ascii (s : string) : Prop :=
  Forall (λ c, (nat_of_ascii c < 128)%nat) (String.list_ascii_of_string s).

(** An upper-case letter, A to Z. *)
Definition is_upper (c : Ascii.ascii) : Prop := (65 ≤ nat_of_ascii c ≤ 90)%nat.

Definition HTTP_409_CONFLICT : nat := 409.

Module gateway.

Record Route : Type := {
  path : string;
  methods : list string;
  description : string;
  auth_required : bool
}.

Record ApiConfig : Type := {
  name : string;
  base_path : string;
  routes : list Route;
  rate_limit : option (list (string * val));
  auth_config : option (list (string * val))
}.

Record ApiResponse : Type := {
  api_id : string;
  status : string;
  message : string
}.

(** An entry of the dictionary that [get_api_docs] returns. *)
Record ApiDoc : Type := {
  doc_name : string;
  doc_base_path : string;
  doc_routes : list Route
}.

Record Health : Type := {
  health_status : string;
  version : string;
  registered_apis : string
}.

Section handlers.

(** [str.lower], of Python.  It is taken as it comes; [ascii_lower] is what
    it does to a name in ASCII. *)
Variable lower : string → string.

(** [f"{api_config.name.lower().replace(' ', '_')}"] *)
Definition identifier (name : string) : string := replace " "%char "_"%char (lower name).

Definition not_found (api_id : string) : http_error :=
  HTTPException HTTP_404_NOT_FOUND ("API with id '" +:+ api_id +:+ "' not found").

Definition register_api (api_config : ApiConfig) (api_configs : gmap string ApiConfig)
  : (http_error + ApiResponse) * gmap string ApiConfig :=
  let api_id := identifier (name api_config) in
  match api_configs !! api_id with
  | Some _ =>
      (inl (HTTPException HTTP_409_CONFLICT
              ("API with name '" +:+ name api_config +:+ "' already registered")),
       api_configs)
  | None =>
      (inr {| api_id := api_id;
              status := "registered";
              message := "API '" +:+ name api_config +:+ "' registered successfully" |},
       <[api_id := api_config]> api_configs)
  end.

(** [get_apis]: [[{"id": k, **v} for k, v in api_configs.items()]], an entry
    for each key; the order of the list is not that of Python, see
    [get_tasks]. *)
Definition get_apis (api_configs : gmap string ApiConfig) : list (string * ApiConfig) :=
  map_to_list api_configs.

(** [{"id": api_id, **api_configs[api_id]}] *)
Definition get_api (api_id : string) (api_configs : gmap string ApiConfig)
  : http_error + string * ApiConfig :=
  match api_configs !! api_id with
  | None => inl (not_found api_id)
  | Some config => inr (api_id, config)
  end.

Definition unregister_api (api_id : string) (api_configs : gmap string ApiConfig)
  : (http_error + ApiResponse) * gmap string ApiConfig :=
  match api_configs !! api_id with
  | None => (inl (not_found api_id), api_configs)
  | Some config =>
      let api_name := name config in
      (inr {| api_id := api_id;
              status := "unregistered";
              message := "API '" +:+ api_name +:+ "' unregistered successfully" |},
       delete api_id api_configs)
  end.

(** The inner loop of [get_api_docs]: [docs[api_id]["routes"].append({...})]
    for each route, the four fields of a route one by one. *)
Definition append_routes (routes : list Route) (documented : list Route) : list Route :=
  foldl (λ acc route,
           acc ++ [{| path := path route;
                      methods := methods route;
                      description := description route;
                      auth_required := auth_required route |}])
        documented routes.

(** [get_api_docs]: [docs] is filled key by key. *)
Definition get_api_docs (api_configs : gmap string ApiConfig) : gmap string ApiDoc :=
  map_fold (λ api_id config docs,
              <[api_id := {| doc_name := name config;
                             doc_base_path := base_path config;
                             doc_routes := append_routes (routes config) [] |}]> docs)
           ∅ api_configs.

Definition health_check (api_configs : gmap string ApiConfig) : Health :=
  {| health_status := "healthy";
     version := "0.1.0";
     registered_apis := pretty (size api_configs) |}.

(** The requests of the gateway, and their answers one after the other. *)
Inductive request : Type :=
| RegisterApi (api_config : ApiConfig)
| UnregisterApi (api_id : string)
| GetApi (api_id : string)
| HealthCheck.

Inductive answer : Type :=
| Registered (r : http_error + ApiResponse)
| Unregistered (r : http_error + ApiResponse)
| Found (r : http_error + string * ApiConfig)
| Healthy (h : Health).

Definition handle (api_configs : gmap string ApiConfig) (req : request)
  : answer * gmap string ApiConfig :=
  match req with
  | RegisterApi api_config =>
      let '(r, σ) := register_api api_config api_configs in (Registered r, σ)
  | UnregisterApi api_id =>
      let '(r, σ) := unregister_api api_id api_configs in (Unregistered r, σ)
  | GetApi api_id => (Found (get_api api_id api_configs), api_configs)
  | HealthCheck => (Healthy (health_check api_configs), api_configs)
  end.

Fixpoint serve (api_configs : gmap string ApiConfig) (reqs : list request)
  : list answer * gmap string ApiConfig :=
  match reqs with
  | [] => ([], api_configs)
  | req :: rest =>
      let '(a, σ) := handle api_configs req in
      let '(answers, σ') := serve σ rest in
      (a :: answers, σ')
  end.

(** The registrations and the removals that went through among [answers]. *)
Definition registrations (answers : list answer) : nat :=
  length (omap (λ a, match a with Registered (inr r) => Some r | _ => None end) answers).

Definition removals (answers : list answer) : nat :=
  length (omap (λ a, match a with Unregistered (inr r) => Some r | _ => None end) answers).

End handlers.

(** A gateway API for the examples. *)
Definition billing : ApiConfig :=
  {| name := "Billing API"; base_path := "/billing";
     routes := [{| path := "/invoices"; methods := ["GET"; "POST"];
                   description := "Invoices"; auth_required := true |};
                {| path := "/health"; methods := ["GET"];
                   description := "Health"; auth_required := false |}];
     rate_limit := None; auth_config := None |}.

(** The same API under a name that differs in case only. *)
Definition billing_again : ApiConfig :=
  {| name := "BILLING api"; base_path := "/v2/billing"; routes := [];
     rate_limit := None; auth_config := None |}.

End gateway.

(** ** The plugin registry of the application

    [src/app.py]: the dictionary [plugins] and its handlers. *)

Module app.

(** [PluginRegister], a [PluginBase] with endpoints and configuration *)
Record PluginRegister : Type := {
  name : string;
  description : string;
  version : string;
  enabled : bool;
  endpoints : list string;
  config : list (string * val)
}.

(** An entry of [plugins]: [{**plugin.dict(), "id": plugin_id}] *)
Record Plugin : Type := {
  registered : PluginRegister;
  id : string
}.

(** [PluginResponse], a [PluginBase] with identifier and status; the other
    keys of an entry are not part of it. *)
Record PluginResponse : Type := {
  response_name : string;
  response_description : string;
  response_version : string;
  response_enabled : bool;
  response_id : string;
  status : string
}.

(** the [PluginResponse] made from the keys of an entry and a status *)
Definition response (entry : Plugin) (status : string) : PluginResponse :=
  {| response_name := name (registered entry);
     response_description := description (registered entry);
     response_version := version (registered entry);
     response_enabled := enabled (registered entry);
     response_id := id entry;
     status := status |}.

Section handlers.

(** [str.lower], of Python, as for the gateway. *)
Variable lower : string → string.

Definition not_found (plugin_id : string) : http_error :=
  HTTPException HTTP_404_NOT_FOUND ("Plugin with id '" +:+ plugin_id +:+ "' not found").

Definition register_plugin (plugin : PluginRegister) (plugins : gmap string Plugin)
  : (http_error + PluginResponse) * gmap string Plugin :=
  let plugin_id := replace " "%char "_"%char (lower (name plugin)) in
  match plugins !! plugin_id with
  | Some _ =>
      (inl (HTTPException HTTP_409_CONFLICT
              ("Plugin with name '" +:+ name plugin +:+ "' already registered")),
       plugins)
  | None =>
      let entry := {| registered := plugin; id := plugin_id |} in
      (inr (response entry "registered"), <[plugin_id := entry]> plugins)
  end.

(** [get_plugins]: a response for each value of the dictionary, the status
    being the default of [PluginResponse]; in the order of [map_to_list]. *)
Definition get_plugins (plugins : gmap string Plugin) : list PluginResponse :=
  (λ kv, response kv.2 "registered") <$> map_to_list plugins.

Definition get_plugin (plugin_id : string) (plugins : gmap string Plugin)
  : http_error + PluginResponse :=
  match plugins !! plugin_id with
  | None => inl (not_found plugin_id)
  | Some entry => inr (response entry "registered")
  end.

(** [unregister_plugin]; the answer is the message. *)
Definition unregister_plugin (plugin_id : string) (plugins : gmap string Plugin)
  : (http_error + string) * gmap string Plugin :=
  match plugins !! plugin_id with
  | None => (inl (not_found plugin_id), plugins)
  | Some _ =>
      (inr ("Plugin '" +:+ plugin_id +:+ "' unregistered successfully"),
       delete plugin_id plugins)
  end.

End handlers.

(** A plugin for the examples. *)
Definition mailer : PluginRegister :=
  {| name := "Mail Sender"; description := "Sends mail"; version := "1.0";
     enabled := true; endpoints := ["/send"]; config := [] |}.

End app.

(** * Properties *)

(** Iteration over a string goes character by character, not byte by
    byte: a string of one character of two bytes does not unpack into two
    values. *)
Example iterate_characters :
  iterate (VStr "ab") = Some [VStr "a"; VStr "b"]
  ∧ iterate (VStr "éa") = Some [VStr "é"; VStr "a"]
  ∧ unpack2 (VStr "é")
    = Raise (ValueError "not enough values to unpack (expected 2, got 1)").
Proof. vm_compute. done. Qed.

Example b64encode_foobar :
  b64encode [Byte.x66; Byte.x6f; Byte.x6f; Byte.x62; Byte.x61; Byte.x72] = "Zm9vYmFy"
  ∧ b64encode [Byte.x66; Byte.x6f] = "Zm8="
  ∧ b64encode [Byte.x66] = "Zg==".
Proof. done. Qed.

(** ** What a step leaves behind *)

Lemma steps_only_refl l σ : steps_only l σ σ.
Proof. done. Qed.

Lemma steps_only_trans l σ1 σ2 σ3 :
  steps_only l σ1 σ2 → steps_only l σ2 σ3 → steps_only l σ1 σ3.
Proof.
  intros (Ht1&Hr1&Hh1&Hl1) (Ht2&Hr2&Hh2&Hl2). split_and!; try congruence.
  - intros l' ?. rewrite Hh2; auto.
  - by rewrite Hl2.
Qed.

Lemma steps_only_written l i o σ : steps_only l σ (written l i o σ).
Proof.
  destruct o as [v|]; [|done]. repeat split; simpl.
  - intros l' ?. by rewrite lookup_alter_ne.
  - rewrite lookup_alter_eq. intros [? Hl]. destruct (heap σ !! l); [eauto|done].
  - intros [x Hl]. rewrite lookup_alter_eq, Hl. eauto.
Qed.

Lemma deref_written l i o σ pre step rest :
  deref σ l = pre ++ step :: rest → length pre = i →
  deref (written l i o σ) l
  = pre ++ from_option (λ v, <["result" := v]> step) step o :: rest.
Proof.
  intros Hl <-. destruct o as [v|]; [|done]. unfold deref in *. simpl.
  rewrite lookup_alter_eq. destruct (heap σ !! l) as [steps|]; simpl in *.
  - subst steps. by rewrite alter_app_r_alt, Nat.sub_diag.
  - by destruct pre.
Qed.

Lemma put_entry_put_entry task_id r1 r2 σ :
  put_entry task_id r2 (put_entry task_id r1 σ) = put_entry task_id r2 σ.
Proof. unfold put_entry. simpl. by rewrite insert_insert_eq. Qed.

Section run_facts.
Context {W : Type} `{!Provider W}.
Implicit Types (s : store * W) (σ : store) (w : W).

Lemma silent_ret {A} (a : A) : silent (W:=W) (ret a).
Proof. done. Qed.

Lemma silent_lift {A} (r : res A) : silent (W:=W) (lift r).
Proof. done. Qed.

Lemma silent_await {R} (c : call R) : silent (await c).
Proof. intros s. unfold await. by destruct (perform c s.2). Qed.

Lemma silent_bind {A B} (m : M (W:=W) A) (k : A → M B) :
  silent m → (∀ a, silent (k a)) → silent (bind m k).
Proof.
  intros Hm Hk s. unfold bind. specialize (Hm s).
  destruct (m s) as [[a|e] s']; simpl in *; [|done].
  by rewrite Hk.
Qed.

Lemma silent_text_contents (elements : list element) : silent (text_contents elements).
Proof.
  induction elements as [|e rest IH]; [apply silent_ret|].
  simpl. apply silent_bind; [apply silent_await|]. intros text.
  apply silent_bind; [done|]. intros texts. apply silent_ret.
Qed.

Lemma text_contents_Ok (elements : list element) s texts s' :
  text_contents elements s = (Ok texts, s') →
  ∃ ts : list (option string),
    texts = from_option VStr VNone <$> ts ∧ length ts = length elements.
Proof.
  revert s texts s'. induction elements as [|e rest IH]; intros s texts s'; simpl.
  - unfold ret. intros [= <- <-]. by exists [].
  - unfold bind at 1, await. destruct (perform (TextContent e) s.2) as [[text|?] w']; [|done].
    unfold bind. destruct (text_contents rest _) as [[ts|?] s''] eqn:Hrest; [|done].
    unfold ret. intros [= <- <-]. apply IH in Hrest as (ts' & -> & Hlen).
    exists (text :: ts'). simpl. by rewrite Hlen.
Qed.

Lemma bind_Ok {A B} (m : M A) (k : A → M B) s a s' :
  m s = (Ok a, s') → bind m k s = k a s'.
Proof. intros Hm. unfold bind. by rewrite Hm. Qed.

Lemma bind_Raise {A B} (m : M A) (k : A → M B) s e s' :
  m s = (Raise e, s') → bind m k s = (Raise e, s').
Proof. intros Hm. unfold bind. by rewrite Hm. Qed.

Lemma bind_lift_Ok {A B} (a : A) (k : A → M B) s : bind (lift (Ok a)) k s = k a s.
Proof. done. Qed.

Lemma bind_lift_Raise {A B} (e : exn) (k : A → M B) s :
  bind (lift (Raise e)) k s = (Raise e, s).
Proof. done. Qed.

Lemma bind_await_Ok {R B} (c : call R) (k : R → M B) s a w' :
  perform c s.2 = (Ok a, w') → bind (await c) k s = k a (s.1, w').
Proof. intros Hc. unfold bind, await. by rewrite Hc. Qed.

Lemma bind_await_Raise {R B} (c : call R) (k : R → M B) s e w' :
  perform c s.2 = (Raise e, w') → bind (await c) k s = (Raise e, (s.1, w')).
Proof. intros Hc. unfold bind, await. by rewrite Hc. Qed.

Lemma silent_written {A} (m : M A) (l : loc) (i : nat) s :
  silent m →
  ∃ o, (m s).2.1 = written l i o s.1 ∧ match (m s).1 with Ok _ | _ => o = None end.
Proof. intros Hm. exists None. split; [apply Hm | by destruct (m s).1]. Qed.

Ltac silence :=
  repeat first
    [ apply silent_ret | apply silent_lift | apply silent_await
    | apply silent_text_contents
    | apply silent_bind; [|intros ?]
    | match goal with |- silent (if ?b then _ else _) => destruct b end ].

(** One step: what it writes, and that a step which raises has written
    nothing. *)
Lemma exec_step_spec (l : loc) (i : nat) (step : dict) s :
  ∃ o, (exec_step l i step s).2.1 = written l i o s.1
       ∧ match (exec_step l i step s).1 with
         | Ok _ => attaches step o
         | Raise _ => o = None
         end.
Proof.
  unfold exec_step, attaches, step_type_is.
  destruct (step !! "type") as [[]|] eqn:Htype; try by (exists None).
  repeat case_bool_decide; simplify_eq; try by (exists None).
  1-5: by (apply silent_written; silence).
  - unfold bind, await, set_result.
    destruct (perform Screenshot s.2) as [[bytes|e] w']; simpl.
    + eexists (Some _). split; [done|]. eexists. split; [done|]. by exists bytes.
    + by exists None.
  - destruct (contains step "selector"); [|destruct (contains step "xpath")].
    + destruct (getitem step "selector") as [selector|e];
        [rewrite !bind_lift_Ok | by exists None].
      destruct (perform (QuerySelector selector) s.2) as [[[e|]|?] w'] eqn:Hquery;
        [rewrite !(bind_await_Ok _ _ _ _ _ Hquery)
        |rewrite !(bind_await_Ok _ _ _ _ _ Hquery); by (exists None; split; [|left])
        |rewrite !(bind_await_Raise _ _ _ _ _ Hquery); by exists None].
      destruct (perform (TextContent e) w') as [[text|?] w''] eqn:Htext;
        [rewrite !(bind_await_Ok _ _ (_, w') _ _ Htext)
        |rewrite !(bind_await_Raise _ _ (_, w') _ _ Htext); by exists None].
      eexists (Some _). split; [done|]. right. eexists. split; [done|]. left. by exists text.
    + destruct (getitem step "xpath") as [xpath|e];
        [rewrite !bind_lift_Ok | by exists None].
      destruct (perform (XPath xpath) s.2) as [[[|e elements]|?] w'] eqn:Hquery;
        [rewrite !(bind_await_Ok _ _ _ _ _ Hquery); by (exists None; split; [|left])
        |rewrite !(bind_await_Ok _ _ _ _ _ Hquery)
        |rewrite !(bind_await_Raise _ _ _ _ _ Hquery); by exists None].
      unfold bind, set_result.
      pose proof (silent_text_contents (e :: elements) (s.1, w')) as Hsilent.
      destruct (text_contents (e :: elements) (s.1, w')) as [[texts|?] s'] eqn:Htexts;
        cbn [fst snd] in *; [|by exists None].
      apply text_contents_Ok in Htexts as (ts & -> & Hlen).
      eexists (Some _). rewrite Hsilent. split; [done|]. right. eexists. split; [done|].
      right. exists ts. split; [|done]. by destruct ts.
    + by (exists None; split; [|left]).
Qed.

(** The loop over the steps: the list at [l] keeps its length, a step that
    went through carries what it attached, the step that raised and those
    after it are as they were, and nothing else changes. *)
Lemma for_steps_spec (steps : list dict) l i s pre post :
  deref s.1 l = pre ++ steps ++ post → length pre = i →
  ∃ steps', deref (for_steps l i steps s).2.1 l = pre ++ steps' ++ post
    ∧ steps_only l s.1 (for_steps l i steps s).2.1
    ∧ match (for_steps l i steps s).1 with
      | Ok _ => Forall2 attached steps steps'
      | Raise _ => Forall2 touched steps steps'
      end.
Proof.
  revert i s pre. induction steps as [|step rest IH]; intros i s pre Hl Hi.
  { exists []. split_and!; [done|apply steps_only_refl|constructor]. }
  simpl. unfold bind.
  destruct (exec_step_spec l i step s) as (o & Hw & Hr).
  pose proof (deref_written l i o s.1 pre step (rest ++ post) Hl Hi) as Hl'.
  pose proof (steps_only_written l i o s.1) as Hframe.
  rewrite <-Hw in Hl', Hframe.
  destruct (exec_step l i step s) as [[[]|e] s1]; simpl in *.
  - destruct (IH (S i) s1 (pre ++ [from_option (λ v, <["result" := v]> step) step o]))
      as (steps' & Hl'' & Hframe' & Hr').
    { by rewrite <-app_assoc. }
    { rewrite length_app. simpl. lia. }
    eexists (_ :: steps'). split_and!.
    + by rewrite Hl'', <-app_assoc.
    + by eapply steps_only_trans.
    + destruct (for_steps l (S i) rest s1).1.
      * constructor; [by exists o|done].
      * constructor; [right; by exists o|done].
  - subst o. exists (step :: rest). split_and!; [done..|].
    apply Forall2_same_length_lookup_2; [done|]. intros ??? ??. left. congruence.
Qed.

Lemma for_steps_app (steps1 steps2 : list dict) l i s :
  for_steps l i (steps1 ++ steps2) s
  = bind (for_steps l i steps1) (λ _, for_steps l (i + length steps1) steps2) s.
Proof.
  revert i s. induction steps1 as [|step rest IH]; intros i s; simpl.
  - unfold bind, ret. by rewrite Nat.add_0_r.
  - unfold bind at 1 2 3. destruct (exec_step l i step s) as [[[]|e] s1]; [|done].
    rewrite IH. by replace (S i + length rest)%nat with (i + S (length rest))%nat by lia.
Qed.





Lemma touched_refl (steps : list dict) : Forall2 touched steps steps.
Proof. apply Forall2_same_length_lookup_2; [done|]. intros ??? ??. left. congruence. Qed.

Lemma attached_touched (steps steps' : list dict) :
  Forall2 attached steps steps' → Forall2 touched steps steps'.
Proof. intros H. eapply Forall2_impl; [done|]. by right. Qed.

Lemma silent_open_page (t : task) : silent (open_page t).
Proof. unfold open_page. silence. Qed.

(** The block under [async with]: session, steps, close, result. *)
Lemma session_spec (task_id : string) (t : task) s :
  let l := task_steps t in
  let out :=
    bind (open_page t) (λ _,
      bind (load l) (λ steps,
        bind (for_steps l 0 steps) (λ _,
          bind (await BrowserClose) (λ _,
            store_result task_id (ResultSteps l))))) s in
  ∃ σ1, steps_only l s.1 σ1
    ∧ match out.1 with
      | Ok _ => out.2.1 = put_entry task_id (ResultSteps l) σ1
                ∧ Forall2 attached (deref s.1 l) (deref σ1 l)
      | Raise _ => out.2.1 = σ1 ∧ Forall2 touched (deref s.1 l) (deref σ1 l)
      end.
Proof.
  intros l out. subst out.
  pose proof (silent_open_page t s) as Hopen.
  destruct (open_page t s) as [[[]|e] s0] eqn:Hpage; simpl in Hopen.
  2: { rewrite (bind_Raise _ _ _ _ _ Hpage). exists s.1.
       split; [apply steps_only_refl|]. split; [done|apply touched_refl]. }
  rewrite (bind_Ok _ _ _ _ _ Hpage).
  rewrite (bind_Ok (load l) _ s0 (deref s.1 l) s0) by (unfold load; by rewrite Hopen).
  destruct (for_steps_spec (deref s.1 l) l 0 s0 [] []) as (steps' & Hl & Hframe & Hr);
    [by rewrite Hopen, app_nil_r|done|].
  rewrite Hopen in Hframe. simpl in Hl. rewrite app_nil_r in Hl.
  destruct (for_steps l 0 (deref s.1 l) s0) as [[[]|e] s1] eqn:Hsteps; simpl in *.
  2: { rewrite (bind_Raise _ _ _ _ _ Hsteps). exists s1.1. rewrite Hl. by split_and!. }
  rewrite (bind_Ok _ _ _ _ _ Hsteps).
  exists s1.1. split; [done|].
  destruct (perform BrowserClose s1.2) as [[[]|e] w2] eqn:Hclose.
  - rewrite (bind_await_Ok _ _ _ _ _ Hclose). simpl. rewrite Hl. by split_and!.
  - rewrite (bind_await_Raise _ _ _ _ _ Hclose). simpl. rewrite Hl.
    split; [done|]. by apply attached_touched.
Qed.

(** The whole [try] block. *)
Lemma automation_spec (task_id : string) (t : task) σ w :
  let l := task_steps t in
  let out := automation task_id t (σ, w) in
  ∃ σ1, steps_only l σ σ1
    ∧ match out.1 with
      | Ok _ => out.2.1 = put_entry task_id (ResultSteps l) σ1
                ∧ Forall2 attached (deref σ l) (deref σ1 l)
      | Raise _ => (out.2.1 = σ1 ∨ out.2.1 = put_entry task_id (ResultSteps l) σ1)
                   ∧ Forall2 touched (deref σ l) (deref σ1 l)
      end.
Proof.
  intros l out. subst out. unfold automation, async_with_playwright.
  destruct (perform AsyncPlaywright w) as [[[]|e] w1] eqn:Hstart.
  2: { rewrite (bind_await_Raise _ _ (σ, w) _ _ Hstart). exists σ.
       split; [apply steps_only_refl|]. split; [by left|apply touched_refl]. }
  rewrite (bind_await_Ok _ _ (σ, w) _ _ Hstart). simpl.
  destruct (session_spec task_id t (σ, w1)) as (σ1 & Hframe & Hr). fold l in Hr.
  exists σ1. split; [done|].
  destruct (bind (open_page t) _ (σ, w1)) as [r s1]. unfold await. simpl in *.
  destruct (perform PlaywrightStop s1.2) as [[[]|e] w2]; simpl.
  - destruct r; [done|]. destruct Hr. split; [by left|done].
  - destruct r as [[]|e'].
    + destruct Hr. split; [by right|]. by apply attached_touched.
    + destruct Hr. split; [by left|done].
Qed.

(** [run_automation] on a registered task.  Before the result entry is
    written only the steps of the task were touched; the entry is written
    last, for a [try] block that went through and for one that an
    [Exception] has left; any other exception leaves [run_automation] as it
    left the [try] block. *)
Lemma run_automation_spec (task_id : string) (t : task) σ w :
  tasks σ !! task_id = Some t →
  let l := task_steps t in
  let body := automation task_id t (σ, w) in
  ∃ σ1, steps_only l σ σ1
    ∧ Forall2 touched (deref σ l) (deref σ1 l)
    ∧ match body.1 with
      | Ok _ =>
          run_automation task_id (σ, w)
          = (Ok (), (put_entry task_id (ResultSteps l) σ1, body.2.2))
          ∧ Forall2 attached (deref σ l) (deref σ1 l)
      | Raise e =>
          if is_exception e
          then run_automation task_id (σ, w)
               = (Ok (), (put_entry task_id (ResultError (str e)) σ1, body.2.2))
          else run_automation task_id (σ, w) = (Raise e, body.2)
               ∧ (body.2.1 = σ1 ∨ body.2.1 = put_entry task_id (ResultSteps l) σ1)
      end.
Proof.
  intros Ht l body. subst body.
  unfold run_automation.
  rewrite (bind_Ok _ _ (σ, w) t (σ, w)) by (unfold lookup_task; simpl; by rewrite Ht).
  unfold try_except.
  destruct (automation_spec task_id t σ w) as (σ1 & Hframe & Hr). fold l in Hr.
  exists σ1. split; [done|].
  destruct (automation task_id t (σ, w)) as [[[]|e] [σ2 w2]]; simpl in *.
  - destruct Hr as [-> Hr]. split_and!; [by apply attached_touched|done|done].
  - destruct Hr as [Hσ2 Hr]. split; [done|].
    destruct (is_exception e); [|done].
    destruct Hσ2 as [-> | ->]; unfold store_result; simpl; [done|].
    by rewrite put_entry_put_entry.
Qed.

(** Whatever its outcome, a run leaves a store in which only the steps of
    its task were touched, with or without a result entry of the task on
    top. *)
Lemma run_automation_frame (task_id : string) (t : task) σ w :
  tasks σ !! task_id = Some t →
  ∃ σ1, steps_only (task_steps t) σ σ1
    ∧ Forall2 touched (deref σ (task_steps t)) (deref σ1 (task_steps t))
    ∧ ((run_automation task_id (σ, w)).2.1 = σ1
       ∨ ∃ r, (run_automation task_id (σ, w)).2.1 = put_entry task_id r σ1
              ∧ ∀ l, r = ResultSteps l → l = task_steps t).
Proof.
  intros Ht.
  destruct (run_automation_spec task_id t σ w Ht) as (σ1 & Hframe & Htouched & Hrun).
  exists σ1. split_and!; [done..|].
  destruct (automation task_id t (σ, w)) as [[[]|e] [σ2 w2]]; simpl in *.
  - destruct Hrun as [-> _]. right. eexists. split; [done|]. by intros ? [= <-].
  - destruct (is_exception e).
    + rewrite Hrun. right. eexists. split; [done|]. by intros ? [=].
    + destruct Hrun as [-> [-> | ->]]; [by left|].
      right. eexists. split; [done|]. by intros ? [= <-].
Qed.

End run_facts.

(** ** What every store of a running process satisfies *)

Lemma task_id_inj (n m : nat) : "task_" +:+ pretty n = "task_" +:+ pretty m → n = m.
Proof. intros [= H]. by apply (inj pretty). Qed.

Lemma well_formed_empty : well_formed empty_store.
Proof.
  split; simpl.
  - intros n [? Hn]. by rewrite lookup_empty in Hn.
  - intros task_id [? Hr]. by rewrite lookup_empty in Hr.
  - intros task_id t Ht. by rewrite lookup_empty in Ht.
Qed.

(** The identifier [create_task] is about to hand out is not in use. *)
Lemma next_id_fresh (σ : store) :
  well_formed σ → tasks σ !! ("task_" +:+ pretty (size (tasks σ) + 1)%nat) = None.
Proof.
  intros Hwf. destruct (tasks σ !! _) eqn:Hid; [|done].
  destruct (wf_ids σ Hwf (size (tasks σ) + 1)%nat); [by rewrite Hid|lia].
Qed.

Lemma create_task_tasks_size (task_config : TaskConfig) (σ : store) :
  well_formed σ → size (tasks (create_task task_config σ).2) = S (size (tasks σ)).
Proof. intros Hwf. simpl. by rewrite map_size_insert_None by by apply next_id_fresh. Qed.

Lemma create_task_well_formed (task_config : TaskConfig) (σ : store) :
  well_formed σ → well_formed (create_task task_config σ).2.
Proof.
  intros Hwf. pose proof (next_id_fresh σ Hwf) as Hfresh.
  pose proof (create_task_tasks_size task_config σ Hwf) as Hsize.
  split.
  - rewrite Hsize. simpl. intros n. rewrite lookup_insert. case_decide as Hn.
    + apply task_id_inj in Hn. lia.
    + intros Hold. apply (wf_ids σ Hwf) in Hold. lia.
  - simpl. intros task_id Hr. apply (wf_results σ Hwf) in Hr.
    rewrite lookup_insert. by case_decide.
  - simpl. intros task_id t. rewrite lookup_insert. case_decide.
    + intros [= <-]. simpl. by rewrite lookup_insert_eq.
    + intros Ht. apply (wf_steps σ Hwf) in Ht. rewrite lookup_insert. by case_decide.
Qed.

(** Registered definitions are out of the reach of a creation. *)
Lemma create_task_get_task (task_config : TaskConfig) (σ : store) (task_id : string) :
  well_formed σ → is_Some (tasks σ !! task_id) →
  get_task task_id (create_task task_config σ).2 = get_task task_id σ.
Proof.
  intros Hwf [t Ht]. pose proof (next_id_fresh σ Hwf) as Hfresh.
  unfold get_task. simpl. rewrite lookup_insert_ne by congruence. rewrite Ht.
  unfold deref. simpl. rewrite lookup_insert_ne; [done|].
  intros Hl. destruct (wf_steps σ Hwf task_id t Ht) as [steps Hsteps].
  apply (is_fresh (dom (heap σ))). rewrite Hl. by apply elem_of_dom.
Qed.

Lemma steps_only_well_formed (l : loc) (σ σ' : store) :
  steps_only l σ σ' → well_formed σ → well_formed σ'.
Proof.
  intros (Ht & Hr & Hh & Hl) Hwf. split.
  - rewrite Ht. apply (wf_ids σ Hwf).
  - rewrite Ht, Hr. apply (wf_results σ Hwf).
  - rewrite Ht. intros task_id t Htask. apply (wf_steps σ Hwf) in Htask.
    destruct (decide (task_steps t = l)) as [Heq|Hne]; [rewrite Heq in *; by apply Hl|by rewrite Hh].
Qed.

Lemma put_entry_well_formed (task_id : string) (r : result_entry) (σ : store) :
  is_Some (tasks σ !! task_id) → well_formed σ → well_formed (put_entry task_id r σ).
Proof.
  intros Ht Hwf. split; simpl; [apply (wf_ids σ Hwf)| |apply (wf_steps σ Hwf)].
  intros task_id'. rewrite lookup_insert. case_decide; [by subst|apply (wf_results σ Hwf)].
Qed.

Section loop_facts.
Context {W : Type} `{!Provider W}.
Implicit Types (p : process) (evs : list (event (W:=W))) (w : W).

Lemma run_automation_well_formed (task_id : string) (σ : store) w :
  is_Some (tasks σ !! task_id) → well_formed σ →
  well_formed (run_automation task_id (σ, w)).2.1.
Proof.
  intros [t Ht] Hwf.
  destruct (run_automation_frame task_id t σ w Ht)
    as (σ1 & Hframe & _ & [-> | (r & -> & _)]); [by eapply steps_only_well_formed|].
  apply put_entry_well_formed; [|by eapply steps_only_well_formed].
  destruct Hframe as (-> & _). eauto.
Qed.

Lemma startup_in_order : in_order startup.
Proof. split; [apply well_formed_empty|]. intros task_id Hin. by apply elem_of_nil in Hin. Qed.

Lemma handle_in_order p (ev : event) : in_order p → in_order (handle p ev).2.
Proof.
  intros [Hwf Hrun]. destruct ev as [task_config|task_id|task_id|task_id|task_id|k w]; simpl;
    try done.
  - split; [by apply create_task_well_formed|]. simpl.
    intros task_id Hin. apply Hrun in Hin. rewrite lookup_insert. by case_decide.
  - unfold execute_task. destruct (tasks (registry p) !! task_id) eqn:Ht; [|done].
    split; [done|]. simpl. intros task_id' [Hin| ->%list_elem_of_singleton]%elem_of_app; eauto.
  - destruct (running p !! k) as [task_id|] eqn:Hk; [|done].
    assert (is_Some (tasks (registry p) !! task_id)) as [t Ht].
    { apply Hrun. by eapply list_elem_of_lookup_2. }
    pose proof (run_automation_well_formed task_id (registry p) w (mk_is_Some _ _ Ht) Hwf) as Hwf'.
    destruct (run_automation_frame task_id t (registry p) w Ht)
      as (σ1 & (Htasks & _) & _ & Hout).
    destruct (run_automation task_id (registry p, w)) as [r [σ' w']]. simpl in *.
    split; [done|]. simpl. intros task_id' Hin.
    assert (tasks σ' = tasks (registry p)) as ->
      by (by destruct Hout as [-> | (r' & -> & _)]).
    apply Hrun. by eapply list_elem_of_delete_inv.
Qed.

Lemma serve_in_order evs p : in_order p → in_order (serve p evs).2.
Proof.
  revert p. induction evs as [|ev evs IH]; intros p Hp; [done|]. simpl.
  pose proof (handle_in_order p ev Hp) as Hp'.
  destruct (handle p ev) as [r p']. specialize (IH p' Hp').
  by destruct (serve p' evs).
Qed.

Lemma reachable_in_order p : reachable p → in_order p.
Proof. intros [evs <-]. apply serve_in_order, startup_in_order. Qed.

(** How a run of a process ends.  The lookup of the task, which is outside
    the [try], never fails, and no [Exception] leaves [run_automation]: the
    run returns, a result being stored for its task, or it is ended by an
    exception that is not an [Exception] (a cancellation), which has left
    the [try] block and goes on to the event loop. *)
Lemma run_returns_or_is_cancelled p k w task_id :
  reachable p → running p !! k = Some task_id →
  ∃ r, (handle p (RunEnds k w)).1 = RunEnded task_id r
    ∧ match r with
      | Ok _ => is_Some (results (registry (handle p (RunEnds k w)).2) !! task_id)
      | Raise e =>
          is_exception e = false
          ∧ ∃ t, tasks (registry p) !! task_id = Some t
                 ∧ (automation task_id t (registry p, w)).1 = Raise e
      end.
Proof.
  intros [_ Hrun]%reachable_in_order Hk. simpl. rewrite Hk.
  destruct (Hrun task_id) as [t Ht]; [by eapply list_elem_of_lookup_2|].
  destruct (run_automation_spec task_id t (registry p) w Ht) as (σ1 & _ & _ & Hout).
  destruct (automation task_id t (registry p, w)) as [[[]|e] s'] eqn:Hbody; simpl in Hout.
  - destruct Hout as [-> _]. eexists. split; [done|]. simpl. by rewrite lookup_insert_eq.
  - destruct (is_exception e) eqn:He.
    + rewrite Hout. eexists. split; [done|]. simpl. by rewrite lookup_insert_eq.
    + destruct Hout as [-> _]. eexists. split; [done|]. simpl. split; [done|].
      exists t. by rewrite Hbody.
Qed.

End loop_facts.

(** ** Task identifiers *)

Section identifiers.
Context {W : Type} `{!Provider W}.
Implicit Types (p : process) (evs : list (event (W:=W))).

(** A step of the process adds a task exactly when it answers a creation,
    and the identifier it answers is the next one. *)
Lemma handle_assigned p (ev : event) :
  in_order p →
  let n := size (tasks (registry p)) in
  let '(r, p') := handle p ev in
  (assigned [r] = [] ∧ size (tasks (registry p')) = n)
  ∨ (assigned [r] = [nth_task_id (n + 1)] ∧ size (tasks (registry p')) = S n).
Proof.
  intros [Hwf Hrun] n.
  destruct ev as [task_config|task_id|task_id|task_id|task_id|k w]; simpl;
    try (left; done).
  - right. split; [done|]. by apply (create_task_tasks_size task_config).
  - left. split; [done|]. by destruct (execute_task task_id (registry p)).
  - destruct (running p !! k) as [task_id|] eqn:Hk; [|by left].
    destruct (Hrun task_id) as [t Ht]; [by eapply list_elem_of_lookup_2|].
    destruct (run_automation_frame task_id t (registry p) w Ht)
      as (σ1 & (Htasks & _) & _ & Hout).
    destruct (run_automation task_id (registry p, w)) as [r [σ' w']]. simpl in *.
    left. split; [done|]. by destruct Hout as [-> | (r' & -> & _)]; simpl; rewrite Htasks.
Qed.

Lemma assigned_cons (r : response) (rs : list response) :
  assigned (r :: rs) = assigned [r] ++ assigned rs.
Proof. unfold assigned. simpl. by case_match. Qed.

Lemma serve_assigned evs p :
  in_order p →
  let n := size (tasks (registry p)) in
  let ids := assigned (serve p evs).1 in
  ids = nth_task_id <$> seq (n + 1) (length ids)
  ∧ size (tasks (registry (serve p evs).2)) = (n + length ids)%nat.
Proof.
  revert p. induction evs as [|ev evs IH]; intros p Hp; [simpl; by rewrite Nat.add_0_r|].
  cbn [serve]. pose proof (handle_assigned p ev Hp) as Hev.
  pose proof (handle_in_order p ev Hp) as Hp'.
  destruct (handle p ev) as [r p']. specialize (IH p' Hp'). cbn [snd] in *.
  destruct (serve p' evs) as [rs p'']. cbn [fst snd] in *.
  rewrite assigned_cons.
  destruct IH as [IH1 IH2]. destruct Hev as [[-> Hn]|[-> Hn]]; rewrite Hn in *.
  - done.
  - rewrite IH2. split; [|simpl; lia].
    change ([?x] ++ ?l) with (x :: l). cbn [length seq fmap list_fmap]. f_equal.
    rewrite IH1 at 1.
    by replace (S (size (tasks (registry p))) + 1)%nat
      with (S (size (tasks (registry p)) + 1)) by lia.
Qed.

End identifiers.

(** ** Creation, execution and status *)

Section registry_claims.
Context {W : Type} `{!Provider W}.
Implicit Types (p : process) (evs : list (event (W:=W))).

Lemma nth_task_id_inj : Inj (=) (=) nth_task_id.
Proof. intros n m. apply task_id_inj. Qed.

(** C10.  [create_task] has no failing path: it answers the identifier
    [task_N], [N] being the number of stored tasks plus one.  Along any
    history of the process the identifiers handed out are [task_1],
    [task_2], ... in this order, so they are pairwise distinct, and the next
    one is none of them. *)
Theorem create_task_fresh_identifier evs (task_config : TaskConfig) :
  let '(rs, p) := serve startup evs in
  let c := (create_task task_config (registry p)).1 in
  c = {| created_task_id := nth_task_id (size (tasks (registry p)) + 1);
         created_status := "created" |}
  ∧ (created_task_id c ∉ assigned rs)
  ∧ NoDup (assigned rs)
  ∧ assigned rs = nth_task_id <$> seq 1 (length (assigned rs)).
Proof.
  pose proof (serve_assigned evs startup startup_in_order) as [Hids Hsize].
  destruct (serve startup evs) as [rs p]. simpl in *.
  change (size (∅ : gmap string task)) with 0%nat in *. simpl in *.
  split_and!; [done| | |done].
  - rewrite Hids, Hsize. intros (n & Hn%nth_task_id_inj & Hin%elem_of_seq)%list_elem_of_fmap.
    lia.
  - rewrite Hids. apply NoDup_fmap; [apply nth_task_id_inj|apply NoDup_seq].
Qed.

(** C5, as the code has it.  The identifier is made from the number of
    stored tasks and from nothing else: whatever the names of two
    definitions registered one after the other (the same name included),
    both registrations succeed, the second under the next identifier, and
    the definition stored first reads afterwards as it was registered. *)
Theorem create_task_ignores_name p (first second : TaskConfig) :
  reachable (W:=W) p →
  let '(c1, σ1) := create_task first (registry p) in
  let '(c2, σ2) := create_task second σ1 in
  created_task_id c1 = nth_task_id (size (tasks (registry p)) + 1)
  ∧ created_task_id c2 = nth_task_id (size (tasks (registry p)) + 2)
  ∧ created_task_id c2 ≠ created_task_id c1
  ∧ get_task (created_task_id c1) σ2 = get_task (created_task_id c1) σ1
  ∧ get_task (created_task_id c1) σ1
    = inr {| view_id := created_task_id c1;
             view_name := name first;
             view_description := description first;
             view_target_url := target_url first;
             view_steps := steps first;
             view_schedule := schedule first |}.
Proof.
  intros [Hwf _]%reachable_in_order.
  pose proof (create_task_well_formed first _ Hwf) as Hwf1.
  pose proof (next_id_fresh _ Hwf) as Hfresh.
  pose proof (create_task_get_task second (create_task first (registry p)).2
                (created_task_id (create_task first (registry p)).1) Hwf1) as Hkept.
  unfold create_task in *. cbn [fst snd created_task_id tasks heap results] in *.
  rewrite map_size_insert_None in Hkept |- * by done.
  split_and!.
  - done.
  - unfold nth_task_id. do 2 f_equal. lia.
  - intros Heq%task_id_inj. lia.
  - apply Hkept. by rewrite lookup_insert_eq.
  - unfold get_task, deref. cbn [tasks heap]. by rewrite !lookup_insert_eq.
Qed.

(** C4, as the code has it.  There is no pending state: right after its
    registration, and as long as no result is stored for it, a task reads
    as running with progress 0.5. *)
Theorem status_without_result p (task_config : TaskConfig) :
  reachable (W:=W) p →
  let '(c, σ) := create_task task_config (registry p) in
  get_task_status (created_task_id c) σ = inr (still_running (created_task_id c))
  ∧ ∀ task_id σ',
      is_Some (tasks σ' !! task_id) → results σ' !! task_id = None →
      get_task_status task_id σ' = inr (still_running task_id).
Proof.
  intros [Hwf _]%reachable_in_order.
  assert (∀ task_id σ',
      is_Some (tasks σ' !! task_id) → results σ' !! task_id = None →
      get_task_status task_id σ' = inr (still_running task_id)) as Hrunning.
  { intros task_id σ' [t Ht] Hr. unfold get_task_status. by rewrite Ht, Hr. }
  pose proof (next_id_fresh _ Hwf) as Hfresh.
  destruct (create_task task_config (registry p)) as [c σ] eqn:Hc.
  injection Hc as <- <-. split; [|done]. apply Hrunning; cbn [created_task_id tasks results].
  - by rewrite lookup_insert_eq.
  - destruct (results (registry p) !! _) eqn:Hr; [|done].
    destruct (wf_results _ Hwf _ (mk_is_Some _ _ Hr)) as [t Ht]. congruence.
Qed.

(** C3, as the code has it.  [execute_task] answers 404 for an unknown
    identifier and starts a run for a known one, whether or not runs of the
    task are still in progress: there is no refusal of a second run. *)
Theorem execute_task_starts_a_run p (task_id : string) :
  (tasks (registry p) !! task_id = None →
   handle (W:=W) p (ExecuteTask task_id) = (ExecuteAnswer (inl (not_found task_id)), p))
  ∧ (is_Some (tasks (registry p) !! task_id) →
     handle (W:=W) p (ExecuteTask task_id)
     = (ExecuteAnswer (inr (started task_id)),
        {| registry := registry p; running := running p ++ [task_id] |})).
Proof.
  split.
  - intros Ht. simpl. unfold execute_task. by rewrite Ht.
  - intros [t Ht]. simpl. unfold execute_task. by rewrite Ht.
Qed.

End registry_claims.

Lemma create_task_fresh_identifier_example :
  assigned (serve (W:=page) startup
              [CreateTask login; ExecuteTask "task_1"; CreateTask login;
               RunEnds 0 full_page; CreateTask login]).1
  = ["task_1"; "task_2"; "task_3"].
Proof. vm_compute. reflexivity. Qed.

Lemma create_task_ignores_name_witness :
  reachable (W:=page) startup
  ∧ let '(c1, σ1) := create_task login (registry startup) in
    let '(c2, σ2) := create_task login σ1 in
    created_task_id c1 = nth_task_id (size (tasks (registry startup)) + 1)
    ∧ created_task_id c2 = nth_task_id (size (tasks (registry startup)) + 2)
    ∧ created_task_id c2 ≠ created_task_id c1
    ∧ get_task (created_task_id c1) σ2 = get_task (created_task_id c1) σ1
    ∧ get_task (created_task_id c1) σ1
      = inr {| view_id := created_task_id c1;
               view_name := name login;
               view_description := description login;
               view_target_url := target_url login;
               view_steps := steps login;
               view_schedule := schedule login |}.
Proof.
  assert (reachable (W:=page) startup) as Hstart by (by exists []).
  split; [exact Hstart|].
  exact (create_task_ignores_name (W:=page) startup login login Hstart).
Defined.

(** Against C5 as stated: the definition named [login] is registered twice;
    the second registration is not refused, and one name has got two
    identifiers, neither of them made from it. *)
Lemma create_task_same_name_twice :
  let '(c1, σ1) := create_task login empty_store in
  let '(c2, σ2) := create_task login σ1 in
  c1 = {| created_task_id := "task_1"; created_status := "created" |}
  ∧ c2 = {| created_task_id := "task_2"; created_status := "created" |}
  ∧ task_name <$> tasks σ2 !! "task_1" = Some "login"
  ∧ task_name <$> tasks σ2 !! "task_2" = Some "login".
Proof. vm_compute. done. Qed.

Lemma status_without_result_witness :
  reachable (W:=page) startup
  ∧ let '(c, σ) := create_task login (registry startup) in
    get_task_status (created_task_id c) σ = inr (still_running (created_task_id c))
    ∧ ∀ task_id σ',
        is_Some (tasks σ' !! task_id) → results σ' !! task_id = None →
        get_task_status task_id σ' = inr (still_running task_id).
Proof.
  assert (reachable (W:=page) startup) as Hstart by (by exists []).
  split; [exact Hstart|].
  exact (status_without_result (W:=page) startup login Hstart).
Defined.

(** Against C4 as stated: the status read right after the registration is
    "running", not a pending one. *)
Lemma status_after_create_is_running :
  get_task_status "task_1" (create_task login empty_store).2
  = inr {| status_task_id := "task_1"; status := "running"; progress := Some (1 # 2)%Q;
           message := Some "Task is still running" |}.
Proof. vm_compute. reflexivity. Qed.

Lemma execute_task_starts_a_run_witness :
  let p := (serve (W:=page) startup [CreateTask login; ExecuteTask "task_1"]).2 in
  (tasks (registry p) !! "task_9" = None
   ∧ handle (W:=page) p (ExecuteTask "task_9")
     = (ExecuteAnswer (inl (not_found "task_9")), p))
  ∧ (is_Some (tasks (registry p) !! "task_1")
     ∧ handle (W:=page) p (ExecuteTask "task_1")
       = (ExecuteAnswer (inr (started "task_1")),
          {| registry := registry p; running := running p ++ ["task_1"] |})).
Proof.
  intros p.
  assert (tasks (registry p) !! "task_9" = None) as Hnone by (vm_compute; reflexivity).
  assert (is_Some (tasks (registry p) !! "task_1")) as Hsome by (vm_compute; eauto).
  destruct (execute_task_starts_a_run (W:=page) p "task_9") as [H9 _].
  destruct (execute_task_starts_a_run (W:=page) p "task_1") as [_ H1].
  split; split; [exact Hnone|exact (H9 Hnone)|exact Hsome|exact (H1 Hsome)].
Defined.

(** Against C3 as stated: a run of [task_1] is in progress, and a second
    [execute_task] is answered like the first and starts a second run. *)
Lemma execute_task_twice :
  let p := (serve (W:=page) startup [CreateTask login; ExecuteTask "task_1"]).2 in
  running p = ["task_1"]
  ∧ handle (W:=page) p (ExecuteTask "task_1")
    = (ExecuteAnswer (inr {| status_task_id := "task_1"; status := "running";
                             progress := Some 0%Q;
                             message := Some "Task execution started" |}),
       {| registry := registry p; running := ["task_1"; "task_1"] |}).
Proof. vm_compute. done. Qed.

(** ** Status polls *)

Lemma polled_cons task_id (r : response) (rs : list response) :
  polled task_id (r :: rs) = polled task_id [r] ++ polled task_id rs.
Proof. unfold polled. simpl. by case_match. Qed.

Lemma ended_cons (r : response) (rs : list response) :
  ended (r :: rs) = ended [r] ++ ended rs.
Proof. unfold ended. simpl. by case_match. Qed.

Lemma accepted_cons (r : response) (rs : list response) :
  accepted (r :: rs) = accepted [r] ++ accepted rs.
Proof. unfold accepted. simpl. by case_match. Qed.

(** ** The coroutine and the run in one piece *)

Section coroutine_facts.
Context {W : Type} `{!Provider W}.
Implicit Types (s : store * W) (σ : store) (w : W).

Lemma bind_proper {A B} (m m' : M A) (k k' : A → M B) s :
  (∀ s, m s = m' s) → (∀ a s, k a s = k' a s) → bind m k s = bind m' k' s.
Proof. intros Hm Hk. unfold bind. rewrite Hm. destruct (m' s) as [[a|e] s']; auto. Qed.

Lemma interp_bind {A B} (c : coroutine.prog A) (k : A → coroutine.prog B) s :
  coroutine.interp (coroutine.bind c k) s
  = bind (coroutine.interp c) (λ a, coroutine.interp (k a)) s.
Proof.
  revert s. induction c as [[a|e]|R call k' IH|k' IH|f k' IH]; intros s; try done.
  - simpl. unfold bind. simpl. destruct (perform call s.2) as [r w']. apply IH.
  - simpl. rewrite IH. done.
  - simpl. rewrite IH. done.
Qed.

Lemma interp_try_except {A} (c : coroutine.prog A) (h : exn → coroutine.prog A) s :
  coroutine.interp (coroutine.try_except c h) s
  = try_except (coroutine.interp c) (λ e, coroutine.interp (h e)) s.
Proof.
  revert s. induction c as [[a|e]|R call k' IH|k' IH|f k' IH]; intros s.
  - done.
  - simpl. unfold try_except. simpl. by destruct (is_exception e).
  - simpl. unfold try_except. simpl. destruct (perform call s.2) as [r w']. apply IH.
  - simpl. rewrite IH. done.
  - simpl. rewrite IH. done.
Qed.

Lemma interp_on_exit {A} (body : coroutine.prog A) s :
  coroutine.interp (coroutine.on_exit body) s
  = let '(r, s') := coroutine.interp body s in
    match await PlaywrightStop s' with
    | (Ok _, s'') => (r, s'')
    | (Raise e, s'') => (Raise e, s'')
    end.
Proof.
  revert s. induction body as [r|R call k' IH|k' IH|f k' IH]; intros s.
  - simpl. unfold await. by destruct (perform PlaywrightStop s.2) as [[[]|e] w'].
  - simpl. destruct (perform call s.2) as [r w']. apply IH.
  - simpl. by rewrite IH.
  - simpl. by rewrite IH.
Qed.

Lemma interp_await {R} (c : call R) s :
  coroutine.interp (coroutine.await c) s = await c s.
Proof. unfold await. simpl. by destruct (perform c s.2). Qed.

Lemma interp_text_contents (elements : list element) s :
  coroutine.interp (coroutine.text_contents elements) s = text_contents elements s.
Proof.
  revert s. induction elements as [|e rest IH]; intros s; [done|].
  cbn [coroutine.text_contents text_contents].
  rewrite interp_bind. apply bind_proper; [apply interp_await|]. intros text s1.
  rewrite interp_bind. by apply bind_proper.
Qed.

Ltac interpret :=
  repeat first
    [ reflexivity
    | apply interp_await
    | apply interp_text_contents
    | rewrite interp_bind; apply bind_proper; [intros ?|intros ? ?]
    | match goal with
      | |- context [if ?b then _ else _] => destruct b
      | |- context [match ?x with Some _ => _ | None => _ end] => destruct x
      | |- context [match ?x with [] => _ | _ :: _ => _ end] => destruct x
      end ].

Lemma interp_exec_step (l : loc) (i : nat) (step : dict) s :
  coroutine.interp (coroutine.exec_step l i step) s = exec_step l i step s.
Proof. unfold coroutine.exec_step, exec_step. interpret. Qed.

Lemma interp_for_steps (l : loc) (i : nat) (steps : list dict) s :
  coroutine.interp (coroutine.for_steps l i steps) s = for_steps l i steps s.
Proof.
  revert i s. induction steps as [|step rest IH]; intros i s; [done|].
  cbn [coroutine.for_steps for_steps].
  rewrite interp_bind. apply bind_proper; [apply interp_exec_step|]. intros _ s1. apply IH.
Qed.

Lemma interp_open_page (t : task) s :
  coroutine.interp (coroutine.open_page t) s = open_page t s.
Proof. unfold coroutine.open_page, open_page. interpret. Qed.

Lemma interp_automation (task_id : string) (t : task) s :
  coroutine.interp (coroutine.automation task_id t) s = automation task_id t s.
Proof.
  unfold coroutine.automation, automation, coroutine.async_with_playwright,
    async_with_playwright.
  rewrite interp_bind. apply bind_proper; [apply interp_await|]. intros _ s1.
  rewrite interp_on_exit.
  replace (coroutine.interp _ s1) with
    (bind (open_page t) (λ _,
       bind (load (task_steps t)) (λ steps,
         bind (for_steps (task_steps t) 0 steps) (λ _,
           bind (await BrowserClose) (λ _,
             store_result task_id (ResultSteps (task_steps t)))))) s1); [done|].
  symmetry.
  rewrite interp_bind. apply bind_proper; [apply interp_open_page|]. intros _ s2.
  rewrite interp_bind. apply bind_proper; [done|]. intros steps s3.
  rewrite interp_bind. apply bind_proper; [apply interp_for_steps|]. intros _ s4.
  rewrite interp_bind. apply bind_proper; [apply interp_await|]. done.
Qed.

(** Resumed with nothing in between, the coroutine is the run taken in one
    piece. *)
Lemma interp_run_automation (task_id : string) s :
  coroutine.interp (coroutine.run_automation task_id) s = run_automation task_id s.
Proof.
  unfold coroutine.run_automation, run_automation.
  rewrite interp_bind. apply bind_proper.
  - intros s1. unfold lookup_task. simpl. by destruct (tasks s1.1 !! task_id).
  - intros t s1. rewrite interp_try_except. unfold try_except.
    rewrite interp_automation. by destruct (automation task_id t s1) as [[[]|e] s2].
Qed.

End coroutine_facts.

Lemma delete_insert_same {A} (l : list A) (k : nat) (x : A) :
  delete k (<[k := x]> l) = delete k l.
Proof.
  revert k. induction l as [|y l IH]; intros [|k]; simpl; try done. by rewrite IH.
Qed.

Section one_piece.
Context {W : Type} `{!Provider W}.
Implicit Types (p : coroutine.process) (w : W).

(** The run goes on at position [k] of the process that is being served. *)
Ltac goes_on H :=
  lazymatch goal with
  | |- context [coroutine.serve ?p' _] =>
      specialize (H p'); cbn [coroutine.registry coroutine.suspended] in H;
      destruct H as (Hended & Hlast & Hserved);
      [apply list_lookup_insert_eq; by eapply lookup_lt_Some|done|];
      destruct (coroutine.serve _ _) as [rs p'']; cbn [fst snd] in *;
      rewrite ended_cons, last_cons, Hlast; split_and!; [done..|];
      by rewrite Hserved, delete_insert_same
  end.

(** The run at position [k], resumed time after time with nothing in
    between, the calls being answered by the world as it goes from [w]. *)
Lemma serve_worlds (task_id : string) (k : nat) (c : coroutine.prog ()) (σ : store) w :
  let out := coroutine.interp c (σ, w) in
  match (coroutine.advance c σ).1 with
  | coroutine.Done r =>
      coroutine.worlds c (σ, w) = [] ∧ r = out.1 ∧ (coroutine.advance c σ).2 = out.2.1
  | c1 =>
      ∀ p, coroutine.suspended p !! k = Some (task_id, c1) →
           coroutine.registry p = (coroutine.advance c σ).2 →
           let served := coroutine.serve p (coroutine.Resume k <$> coroutine.worlds c (σ, w)) in
           ended served.1 = [task_id]
           ∧ last served.1 = Some (RunEnded task_id out.1)
           ∧ served.2 = {| coroutine.registry := out.2.1;
                           coroutine.suspended := delete k (coroutine.suspended p) |}
  end.
Proof.
  revert σ w. induction c as [r|R call k' IH|k' IH|f k' IH]; intros σ w; cbn zeta;
    [done| |apply IH..].
  cbn [coroutine.advance fst snd coroutine.worlds coroutine.interp].
  intros p Hk Hσ. specialize (IH (perform call w).1 σ (perform call w).2).
  destruct (perform call w) as [r w'] eqn:Hcall. cbn [fst snd] in IH.
  cbn [fmap list_fmap coroutine.serve coroutine.handle]. rewrite Hk.
  cbn [coroutine.resume]. rewrite Hcall, Hσ. cbn [fst].
  destruct (coroutine.advance (k' r) σ) as [c2 σ2] eqn:Hadv. cbn [fst snd] in IH.
  destruct c2 as [r2|R2 call2 k2|k2|f2 k2]; [|goes_on IH..].
  destruct IH as (-> & -> & ->). simpl. by destruct p.
Qed.

(** A run that the event loop resumes time after time with nothing in
    between, from its start to its end, is the run taken in one piece: it
    ends as [run_automation] ends, with the same store. *)
Lemma run_in_one_piece p (k : nat) (task_id : string) w :
  coroutine.suspended p !! k = Some (task_id, coroutine.run_automation task_id) →
  let out := run_automation task_id (coroutine.registry p, w) in
  let ws := w :: coroutine.worlds (coroutine.run_automation task_id) (coroutine.registry p, w) in
  let served := coroutine.serve p (coroutine.Resume k <$> ws) in
  ended served.1 = [task_id]
  ∧ last served.1 = Some (RunEnded task_id out.1)
  ∧ served.2 = {| coroutine.registry := out.2.1;
                  coroutine.suspended := delete k (coroutine.suspended p) |}.
Proof.
  intros Hk out ws served. subst out ws served.
  rewrite <-interp_run_automation.
  pose proof (serve_worlds task_id k (coroutine.run_automation task_id)
                (coroutine.registry p) w) as Hrun. cbn zeta in Hrun.
  cbn [fmap list_fmap coroutine.serve coroutine.handle]. rewrite Hk.
  change (coroutine.resume (coroutine.run_automation task_id) w (coroutine.registry p))
    with (coroutine.advance (coroutine.run_automation task_id) (coroutine.registry p)).
  destruct (coroutine.advance _ (coroutine.registry p)) as [c1 σ1]. cbn [fst snd] in Hrun.
  destruct c1 as [r1|R1 call1 k1|k1|f1 k1]; [|goes_on Hrun..].
  destruct Hrun as (-> & -> & ->). simpl. by destruct p.
Qed.

End one_piece.

(** ** A process followed from await to await *)

Lemma keeps_refl (task_id : string) (σ : store) : coroutine.keeps task_id σ σ.
Proof. split; [done|]. intros id. split; [done|by left]. Qed.

Lemma keeps_trans (task_id : string) (σ1 σ2 σ3 : store) :
  coroutine.keeps task_id σ1 σ2 → coroutine.keeps task_id σ2 σ3 →
  coroutine.keeps task_id σ1 σ3.
Proof.
  intros [Ht1 H1] [Ht2 H2]. split; [congruence|]. intros id.
  destruct (H1 id) as [H1a H1b]. destruct (H2 id) as [H2a H2b]. split; [auto|].
  intros [?|?]%H2b; [auto|by right].
Qed.

Lemma keeps_put_result (task_id : string) l i v (σ : store) :
  coroutine.keeps task_id σ (put_result l i v σ).
Proof. split; [done|]. intros id. split; [done|by left]. Qed.

Lemma keeps_put_entry (task_id : string) r (σ : store) :
  coroutine.keeps task_id σ (put_entry task_id r σ).
Proof.
  split; [done|]. intros id. simpl. rewrite lookup_insert. case_decide; subst.
  - split; [eauto|by right].
  - split; [done|by left].
Qed.

Lemma owned_bind {A B} task_id (c : coroutine.prog A) (k : A → coroutine.prog B) :
  coroutine.owned task_id c → (∀ a, coroutine.owned task_id (k a)) →
  coroutine.owned task_id (coroutine.bind c k).
Proof.
  intros Hc Hk. induction c as [[a|e]|R call k' IH|k' IH|f k' IH]; simpl in *; auto.
  destruct Hc. auto.
Qed.

Lemma owned_try_except {A} task_id (c : coroutine.prog A) (h : exn → coroutine.prog A) :
  coroutine.owned task_id c → (∀ e, coroutine.owned task_id (h e)) →
  coroutine.owned task_id (coroutine.try_except c h).
Proof.
  intros Hc Hh. induction c as [[a|e]|R call k' IH|k' IH|f k' IH]; simpl in *; auto.
  - by destruct (is_exception e).
  - destruct Hc. auto.
Qed.

Lemma owned_on_exit {A} task_id (body : coroutine.prog A) :
  coroutine.owned task_id body → coroutine.owned task_id (coroutine.on_exit body).
Proof.
  intros Hc. induction body as [r|R call k' IH|k' IH|f k' IH]; simpl in *; auto.
  - by intros [[]|e].
  - destruct Hc. auto.
Qed.

Lemma owned_text_contents task_id (elements : list element) :
  coroutine.owned task_id (coroutine.text_contents elements).
Proof.
  induction elements as [|e rest IH]; [done|]. cbn [coroutine.text_contents].
  apply owned_bind; [done|]. intros text. by apply owned_bind.
Qed.

Ltac own :=
  repeat first
    [ exact I
    | apply owned_text_contents
    | apply owned_bind; [|intros ?]
    | match goal with
      | |- coroutine.owned _ (if ?b then _ else _) => destruct b
      | |- coroutine.owned _ (match ?x with Some _ => _ | None => _ end) => destruct x
      | |- coroutine.owned _ (match ?x with [] => _ | _ :: _ => _ end) => destruct x
      | |- coroutine.owned _ (coroutine.await _) => by intros ?
      | |- coroutine.owned _ (coroutine.set_result _ _ _) =>
          split; [intros ?; apply keeps_put_result|exact I]
      | |- coroutine.owned _ (coroutine.store_result _ _) =>
          split; [intros ?; apply keeps_put_entry|exact I]
      | |- coroutine.owned _ (coroutine.load _) => by intros ?
      | |- coroutine.owned _ (coroutine.lift _) => exact I
      | |- coroutine.owned _ (coroutine.ret _) => exact I
      end ].

Lemma owned_exec_step task_id (l : loc) (i : nat) (step : dict) :
  coroutine.owned task_id (coroutine.exec_step l i step).
Proof. unfold coroutine.exec_step. own. Qed.

Lemma owned_for_steps task_id (l : loc) (i : nat) (steps : list dict) :
  coroutine.owned task_id (coroutine.for_steps l i steps).
Proof.
  revert i. induction steps as [|step rest IH]; intros i; [done|].
  cbn [coroutine.for_steps]. apply owned_bind; [apply owned_exec_step|auto].
Qed.

(** A run writes the result of its own task and no other. *)
Lemma owned_run_automation (task_id : string) :
  coroutine.owned task_id (coroutine.run_automation task_id).
Proof.
  unfold coroutine.run_automation. apply owned_bind.
  { intros σ. by destruct (tasks σ !! task_id). }
  intros t. apply owned_try_except; [|intros e; own].
  unfold coroutine.automation, coroutine.async_with_playwright.
  apply owned_bind; [by intros ?|]. intros _. apply owned_on_exit.
  apply owned_bind; [unfold coroutine.open_page; own|]. intros _.
  apply owned_bind; [by intros ?|]. intros steps.
  apply owned_bind; [apply owned_for_steps|]. intros _. own.
Qed.

Lemma advance_owned {A} task_id (c : coroutine.prog A) (σ : store) :
  coroutine.owned task_id c →
  coroutine.owned task_id (coroutine.advance c σ).1
  ∧ coroutine.keeps task_id σ (coroutine.advance c σ).2.
Proof.
  revert σ. induction c as [r|R call k' IH|k' IH|f k' IH]; intros σ Hc; simpl in *.
  - split; [done|apply keeps_refl].
  - split; [done|apply keeps_refl].
  - auto.
  - destruct Hc as [Hf Hk]. destruct (IH (f σ) Hk) as [? ?]. split; [done|].
    by eapply keeps_trans.
Qed.

Section process_facts.
Context {W : Type} `{!Provider W}.
Implicit Types (p : coroutine.process) (ticks : list (coroutine.tick (W:=W))) (w : W).

Lemma resume_owned {A} task_id (c : coroutine.prog A) w (σ : store) :
  coroutine.owned task_id c →
  coroutine.owned task_id (coroutine.resume c w σ).1
  ∧ coroutine.keeps task_id σ (coroutine.resume c w σ).2.
Proof.
  intros Hc. destruct c as [r|R call k'|k'|f k']; by apply advance_owned.
Qed.

Lemma handle_in_hand p (t : coroutine.tick) (ids : list string) :
  coroutine.in_hand p ids →
  coroutine.in_hand (coroutine.handle p t).2 (ids ++ accepted [(coroutine.handle p t).1]).
Proof.
  intros [Hres Hrun].
  assert (coroutine.in_hand p (ids ++ [])) as Hsame by (by rewrite app_nil_r).
  destruct t as [task_config|task_id|task_id|task_id|task_id|k w]; simpl; try done.
  - unfold execute_task. destruct (tasks (coroutine.registry p) !! task_id); [|done].
    split; simpl.
    + intros id Hid. apply elem_of_app. left. auto.
    + intros id c [Hin|Heq%list_elem_of_singleton]%elem_of_app.
      * destruct (Hrun id c Hin). split; [|done]. apply elem_of_app. by left.
      * injection Heq as -> ->. split; [|apply owned_run_automation].
        apply elem_of_app. right. unfold accepted. simpl. by apply list_elem_of_singleton.
  - destruct (coroutine.suspended p !! k) as [[task_id c]|] eqn:Hk; [|done].
    destruct (Hrun task_id c) as [Hid Hc]; [by eapply list_elem_of_lookup_2|].
    destruct (resume_owned task_id c w (coroutine.registry p) Hc) as [Hc' [_ Hkeeps]].
    destruct (coroutine.resume c w (coroutine.registry p)) as [c' σ']. simpl in *.
    assert (∀ id, is_Some (results σ' !! id) → id ∈ ids) as Hres'.
    { intros id [?| ->]%Hkeeps; auto. }
    destruct c' as [r|R call k'|k'|f k']; simpl; rewrite app_nil_r;
      (split; simpl; [done|]); intros id c0 Hin;
      [apply Hrun; by eapply list_elem_of_delete_inv|..].
    all: apply list_elem_of_lookup in Hin as [j Hj];
      destruct (decide (j = k)) as [->|Hne];
      [rewrite list_lookup_insert_eq in Hj by (by eapply lookup_lt_Some);
       by injection Hj as <- <-
      |rewrite list_lookup_insert_ne in Hj by done; apply Hrun;
       by eapply list_elem_of_lookup_2].
Qed.

(** No step of the process takes a stored result away. *)
Lemma handle_results_kept p (t : coroutine.tick) (ids : list string) (task_id : string) :
  coroutine.in_hand p ids →
  is_Some (results (coroutine.registry p) !! task_id) →
  is_Some (results (coroutine.registry (coroutine.handle p t).2) !! task_id).
Proof.
  intros [Hres Hrun] Hr.
  destruct t as [task_config|task_id'|task_id'|task_id'|task_id'|k w]; simpl; try done.
  - by destruct (execute_task task_id' (coroutine.registry p)).
  - destruct (coroutine.suspended p !! k) as [[task_id' c]|] eqn:Hk; [|done].
    destruct (Hrun task_id' c) as [Hid Hc]; [by eapply list_elem_of_lookup_2|].
    destruct (resume_owned task_id' c w (coroutine.registry p) Hc) as [_ [_ Hkeeps]].
    destruct (coroutine.resume c w (coroutine.registry p)) as [c' σ']. simpl in *.
    apply Hkeeps in Hr. by destruct c'.
Qed.

(** What one poll of [task_id] reads. *)
Lemma handle_polled_await p (t : coroutine.tick) (task_id : string) :
  let r := (coroutine.handle p t).1 in
  polled task_id [r] = []
  ∨ (polled task_id [r] = [(1 # 2)%Q] ∧ results (coroutine.registry p) !! task_id = None)
  ∨ (polled task_id [r] = [1%Q] ∧ is_Some (results (coroutine.registry p) !! task_id)).
Proof.
  destruct t as [task_config|task_id'|task_id'|task_id'|task_id'|k w]; simpl;
    try (by left).
  - unfold get_task_status, polled. simpl.
    destruct (tasks (coroutine.registry p) !! task_id'); [|by left].
    destruct (results (coroutine.registry p) !! task_id') eqn:Hr; simpl;
      case_bool_decide; subst; simpl; eauto.
  - left. destruct (coroutine.suspended p !! k) as [[task_id' c]|]; [|done].
    destruct (coroutine.resume c w (coroutine.registry p)) as [c' σ']. by destruct c'.
Qed.

Lemma serve_polled_await ticks p (ids : list string) (task_id : string) :
  coroutine.in_hand p ids →
  let rs := (coroutine.serve p ticks).1 in
  let p' := (coroutine.serve p ticks).2 in
  StronglySorted Qle (polled task_id rs)
  ∧ Forall (λ q, q = (1 # 2)%Q ∨ q = 1%Q) (polled task_id rs)
  ∧ (is_Some (results (coroutine.registry p) !! task_id) →
     Forall (λ q, q = 1%Q) (polled task_id rs))
  ∧ coroutine.in_hand p' (ids ++ accepted rs).
Proof.
  revert p ids. induction ticks as [|t ticks IH]; intros p ids Hp.
  { simpl. rewrite app_nil_r. split_and!; [by constructor..|done]. }
  cbn [coroutine.serve]. pose proof (handle_polled_await p t task_id) as Hpoll.
  pose proof (handle_results_kept p t ids task_id Hp) as Hkeep.
  pose proof (handle_in_hand p t ids Hp) as Hp'.
  destruct (coroutine.handle p t) as [r p']. cbn [fst snd] in *.
  specialize (IH p' _ Hp').
  destruct (coroutine.serve p' ticks) as [rs p'']. cbn [fst snd] in *.
  destruct IH as (Hsorted & Hvalues & Hones & Hhand).
  rewrite polled_cons, accepted_cons, (assoc (++)).
  destruct Hpoll as [->|[[-> Hnone]|[-> Hsome]]]; simpl.
  - split_and!; [done..| |done]. intros Hr. by apply Hones, Hkeep.
  - split_and!; [| | |done].
    + constructor; [done|]. eapply Forall_impl; [done|]. by intros q [->| ->].
    + constructor; [by left|done].
    + rewrite Hnone. by intros [??].
  - specialize (Hones (Hkeep Hsome)). split_and!; [| | |done].
    + constructor; [done|]. eapply Forall_impl; [done|]. by intros q ->.
    + constructor; [by right|done].
    + intros _. by constructor.
Qed.

(** C9, as the code has it.  Requests and runs taken as the event loop
    takes them, a run from one await to the next: the progress values read
    by the successive status polls of a task are 0.5 as long as no result is
    stored for it and 1.0 from then on, so they never decrease.  A poll
    reads 1.0 exactly when a result is stored, and a result is stored only
    for a task whose execution was accepted before; the run that stored it
    need not be over, nor be the run now in progress. *)
Theorem progress_polls_monotone ticks (task_id : string) :
  let '(rs, p) := coroutine.serve (W:=W) coroutine.startup ticks in
  StronglySorted Qle (polled task_id rs)
  ∧ Forall (λ q, q = (1 # 2)%Q ∨ q = 1%Q) (polled task_id rs)
  ∧ ∀ st, get_task_status task_id (coroutine.registry p) = inr st →
      (progress st = Some 1%Q ↔ is_Some (results (coroutine.registry p) !! task_id))
      ∧ (progress st = Some 1%Q → task_id ∈ accepted rs).
Proof.
  assert (coroutine.in_hand coroutine.startup []) as Hstart.
  { split; simpl.
    - intros id [? Hid]. by rewrite lookup_empty in Hid.
    - intros id c Hin. by apply elem_of_nil in Hin. }
  pose proof (serve_polled_await ticks coroutine.startup [] task_id Hstart)
    as (Hsorted & Hvalues & _ & [Hres _]).
  destruct (coroutine.serve coroutine.startup ticks) as [rs p]. cbn [fst snd] in *.
  split_and!; [done..|]. intros st Hst.
  assert (progress st = Some 1%Q ↔ is_Some (results (coroutine.registry p) !! task_id))
    as Hiff.
  { unfold get_task_status in Hst. destruct (tasks (coroutine.registry p) !! task_id); [|done].
    destruct (results (coroutine.registry p) !! task_id); injection Hst as <-; simpl.
    - split; eauto.
    - split; [done|by intros [??]]. }
  split; [done|]. intros Hone%Hiff. by apply Hres.
Qed.

End process_facts.

(** Against C9 as stated: the first run of [task_1] is over and a second
    one is in progress; the poll reads "completed" and 1.0 although the run
    in progress is not over. *)
Lemma progress_one_during_second_run :
  let '(rs, p) :=
    coroutine.serve (W:=page) coroutine.startup
      ([coroutine.CreateTask login; coroutine.ExecuteTask "task_1"]
       ++ replicate 10 (coroutine.Resume 0 full_page)
       ++ [coroutine.ExecuteTask "task_1"; coroutine.Resume 0 full_page;
           coroutine.GetTaskStatus "task_1"]) in
  ended rs = ["task_1"]
  ∧ (coroutine.suspended p).*1 = ["task_1"]
  ∧ last rs = Some (StatusAnswer (inr {| status_task_id := "task_1"; status := "completed";
                                         progress := Some 1%Q;
                                         message := Some "Task execution completed" |})).
Proof. vm_compute. done. Qed.

(** Against C9 as stated, in a first run: the result is stored under the
    [async with], before its exit.  A poll that comes while the run awaits
    the exit reads "completed" and 1.0, the run not being over; the exit
    then fails, and the next poll reads "failed". *)
Lemma progress_one_before_run_ends :
  let '(rs, p) :=
    coroutine.serve (W:=browser) coroutine.startup
      ([coroutine.CreateTask shoot; coroutine.ExecuteTask "task_1"]
       ++ replicate 7 (coroutine.Resume 0 sound_browser)
       ++ [coroutine.GetTaskStatus "task_1"]) in
  let '(rs', p') :=
    coroutine.serve p [coroutine.Resume 0 leaking_browser; coroutine.GetTaskStatus "task_1"] in
  ended rs = []
  ∧ (coroutine.suspended p).*1 = ["task_1"]
  ∧ last rs = Some (StatusAnswer (inr {| status_task_id := "task_1"; status := "completed";
                                         progress := Some 1%Q;
                                         message := Some "Task execution completed" |}))
  ∧ rs' = [RunEnded "task_1" (Ok ());
           StatusAnswer (inr {| status_task_id := "task_1"; status := "failed";
                                progress := Some 1%Q;
                                message := Some "Connection closed" |})].
Proof. vm_compute. done. Qed.

(** ** Runs *)

Lemma get_task_status_put_entry (task_id : string) (r : result_entry) (σ : store) :
  is_Some (tasks σ !! task_id) →
  get_task_status task_id (put_entry task_id r σ)
  = inr match r with
        | ResultSteps _ =>
            {| status_task_id := task_id; status := "completed"; progress := Some 1%Q;
               message := Some "Task execution completed" |}
        | ResultError msg =>
            {| status_task_id := task_id; status := "failed"; progress := Some 1%Q;
               message := Some msg |}
        end.
Proof.
  intros [t Ht]. unfold get_task_status. simpl. rewrite Ht, lookup_insert_eq. by destruct r.
Qed.

Lemma get_task_result_put_entry (task_id : string) (r : result_entry) (σ : store) :
  is_Some (tasks σ !! task_id) →
  get_task_result task_id (put_entry task_id r σ)
  = inr match r with
        | ResultSteps l =>
            {| result_task_id := task_id; result_status := "completed";
               result := Some (deref σ l); error := None |}
        | ResultError msg =>
            {| result_task_id := task_id; result_status := "failed";
               result := None; error := Some msg |}
        end.
Proof.
  intros [t Ht]. unfold get_task_result. simpl. rewrite Ht, lookup_insert_eq. by destruct r.
Qed.

Section run_claims.
Context {W : Type} `{!Provider W}.
Implicit Types (s : store * W) (σ : store) (w : W).

(** The [try] block up to the loop over the steps. *)
Lemma automation_until_steps (task_id : string) (t : task) σ w w1 s0 :
  perform AsyncPlaywright w = (Ok (), w1) →
  open_page t (σ, w1) = (Ok (), s0) →
  s0.1 = σ
  ∧ automation task_id t (σ, w)
    = let '(r, s') :=
        bind (for_steps (task_steps t) 0 (deref σ (task_steps t))) (λ _,
          bind (await BrowserClose) (λ _,
            store_result task_id (ResultSteps (task_steps t)))) s0 in
      match await PlaywrightStop s' with
      | (Ok _, s'') => (r, s'')
      | (Raise e, s'') => (Raise e, s'')
      end.
Proof.
  intros Hstart Hopen. pose proof (silent_open_page t (σ, w1)) as Hsilent.
  rewrite Hopen in Hsilent. simpl in Hsilent. split; [done|].
  unfold automation, async_with_playwright.
  rewrite (bind_await_Ok _ _ (σ, w) _ _ Hstart). simpl.
  rewrite (bind_Ok _ _ _ _ _ Hopen).
  by rewrite (bind_Ok (load _) _ s0 (deref σ (task_steps t)) s0)
    by (unfold load; by rewrite Hsilent).
Qed.


Lemma automation_open_page_fails (task_id : string) (t : task) σ w w1 e s0 :
  perform AsyncPlaywright w = (Ok (), w1) →
  open_page t (σ, w1) = (Raise e, s0) →
  automation task_id t (σ, w) = (Raise (leaving e s0.2), (σ, (perform PlaywrightStop s0.2).2)).
Proof.
  intros Hstart Hopen. pose proof (silent_open_page t (σ, w1)) as Hsilent.
  rewrite Hopen in Hsilent. simpl in Hsilent.
  unfold automation, async_with_playwright.
  rewrite (bind_await_Ok _ _ (σ, w) _ _ Hstart). simpl.
  rewrite (bind_Raise _ _ _ _ _ Hopen). unfold await, leaving. rewrite Hsilent.
  by destruct (perform PlaywrightStop s0.2) as [[[]|e'] w3].
Qed.


(** C7, as the code has it.  A run changes nothing of the stored
    definitions but the ["result"] entries of the steps of its own task:
    names, descriptions, URLs, schedules and the other tasks are as before,
    the task has the same steps in the same order, and each of them is as
    registered or, for a screenshot or extract step, as registered with the
    result written under ["result"]. *)
Theorem run_automation_keeps_definition (task_id : string) (t : task) σ w :
  tasks σ !! task_id = Some t →
  let σ' := (run_automation task_id (σ, w)).2.1 in
  tasks σ' = tasks σ
  ∧ (∀ task_id' t', tasks σ !! task_id' = Some t' → task_steps t' ≠ task_steps t →
       get_task task_id' σ' = get_task task_id' σ)
  ∧ ∃ steps',
      get_task task_id σ'
      = inr {| view_id := task_id;
               view_name := task_name t;
               view_description := task_description t;
               view_target_url := task_target_url t;
               view_steps := steps';
               view_schedule := task_schedule t |}
      ∧ Forall2 touched (deref σ (task_steps t)) steps'.
Proof.
  intros Ht σ'. subst σ'.
  destruct (run_automation_frame task_id t σ w Ht)
    as (σ1 & (Htasks & _ & Hheap & _) & Htouched & Hout).
  assert (tasks (run_automation task_id (σ, w)).2.1 = tasks σ1
          ∧ heap (run_automation task_id (σ, w)).2.1 = heap σ1) as [Htasks' Hheap']
    by (by destruct Hout as [-> | (r & -> & _)]).
  split_and!; [congruence| |].
  - intros task_id' t' Ht' Hl. unfold get_task, deref.
    by rewrite Htasks', Hheap', Htasks, Ht', Hheap.
  - eexists. split; [|done]. unfold get_task, deref. by rewrite Htasks', Hheap', Htasks, Ht.
Qed.

End run_claims.


(** The run of the witness does fail, on the click, and is stored so. *)
Lemma run_automation_captures_example :
  (automation "task_1" (stored shoot_and_submit 0)
     (registered shoot_and_submit, bare_page)).1
  = Raise (ProviderError "Timeout 30000ms exceeded.")
  ∧ get_task_status "task_1"
      (run_automation "task_1" (registered shoot_and_submit, bare_page)).2.1
    = inr {| status_task_id := "task_1"; status := "failed"; progress := Some 1%Q;
             message := Some "Timeout 30000ms exceeded." |}.
Proof. vm_compute. done. Qed.


Lemma run_automation_keeps_definition_witness :
  tasks (registered shoot_and_submit) !! "task_1" = Some (stored shoot_and_submit 0)
  ∧ let σ' := (run_automation "task_1" (registered shoot_and_submit, bare_page)).2.1 in
    tasks σ' = tasks (registered shoot_and_submit)
    ∧ (∀ task_id' t',
         tasks (registered shoot_and_submit) !! task_id' = Some t' →
         task_steps t' ≠ task_steps (stored shoot_and_submit 0) →
         get_task task_id' σ' = get_task task_id' (registered shoot_and_submit))
    ∧ ∃ steps',
        get_task "task_1" σ'
        = inr {| view_id := "task_1";
                 view_name := task_name (stored shoot_and_submit 0);
                 view_description := task_description (stored shoot_and_submit 0);
                 view_target_url := task_target_url (stored shoot_and_submit 0);
                 view_steps := steps';
                 view_schedule := task_schedule (stored shoot_and_submit 0) |}
        ∧ Forall2 touched
            (deref (registered shoot_and_submit) (task_steps (stored shoot_and_submit 0)))
            steps'.
Proof.
  assert (tasks (registered shoot_and_submit) !! "task_1" = Some (stored shoot_and_submit 0))
    as Ht by (vm_compute; reflexivity).
  split; [exact Ht|].
  exact (run_automation_keeps_definition "task_1" (stored shoot_and_submit 0)
           (registered shoot_and_submit) bare_page Ht).
Defined.

(** Against C7 as stated: after a run, the screenshot step of the stored
    definition carries a ["result"] entry that was not registered, so the
    definition does not read as it was registered. *)
Lemma run_automation_writes_definition :
  let σ := registered shoot_and_submit in
  let σ' := (run_automation "task_1" (σ, full_page)).2.1 in
  deref σ 0 = [screenshot_step; click_submit]
  ∧ deref σ' 0
    = [<["result" := VDict [("screenshot", VStr "Zm9v")]]> screenshot_step; click_submit]
  ∧ get_task "task_1" σ' ≠ get_task "task_1" σ.
Proof.
  split_and!; [vm_compute; reflexivity..|].
  intros Heq.
  assert (∀ v, get_task "task_1" (registered shoot_and_submit) = inr v →
               (view_steps v !! 0%nat) ≫= (.!! "result") = None) as Hbefore.
  { intros v. vm_compute. by intros [= <-]. }
  assert (∀ v, get_task "task_1"
                 (run_automation "task_1" (registered shoot_and_submit, full_page)).2.1
               = inr v → (view_steps v !! 0%nat) ≫= (.!! "result") ≠ None) as Hafter.
  { intros v. vm_compute. by intros [= <-]. }
  destruct (get_task "task_1" (registered shoot_and_submit)) as [|v] eqn:Hv.
  { vm_compute in Hv. done. }
  by apply (Hafter v), (Hbefore v).
Qed.

(** ** How a run ends *)

Section run_outcomes.
Context {W : Type} `{!Provider W}.
Implicit Types (s : store * W) (σ : store) (w : W).

(** Session, steps, close and exit all go through. *)
Lemma run_automation_through (task_id : string) (t : task) σ w w1 s0 s1 w2 w3 :
  tasks σ !! task_id = Some t →
  perform AsyncPlaywright w = (Ok (), w1) →
  open_page t (σ, w1) = (Ok (), s0) →
  for_steps (task_steps t) 0 (deref σ (task_steps t)) s0 = (Ok (), s1) →
  perform BrowserClose s1.2 = (Ok (), w2) →
  perform PlaywrightStop w2 = (Ok (), w3) →
  run_automation task_id (σ, w)
  = (Ok (), (put_entry task_id (ResultSteps (task_steps t)) s1.1, w3)).
Proof.
  intros Ht Hstart Hopen Hsteps Hclose Hstop.
  destruct (automation_until_steps task_id t σ w w1 s0 Hstart Hopen) as [Hσ Hbody].
  unfold run_automation.
  rewrite (bind_Ok _ _ (σ, w) t (σ, w)) by (unfold lookup_task; simpl; by rewrite Ht).
  unfold try_except. rewrite Hbody.
  rewrite (bind_Ok _ _ _ _ _ Hsteps), (bind_await_Ok _ _ _ _ _ Hclose).
  unfold store_result, await. simpl. by rewrite Hstop.
Qed.

(** The loop over the steps raises. *)
Lemma run_automation_aborted (task_id : string) (t : task) σ w w1 s0 e s1 :
  tasks σ !! task_id = Some t →
  perform AsyncPlaywright w = (Ok (), w1) →
  open_page t (σ, w1) = (Ok (), s0) →
  for_steps (task_steps t) 0 (deref σ (task_steps t)) s0 = (Raise e, s1) →
  run_automation task_id (σ, w)
  = if is_exception (leaving e s1.2)
    then (Ok (), (put_entry task_id (ResultError (str (leaving e s1.2))) s1.1,
                  (perform PlaywrightStop s1.2).2))
    else (Raise (leaving e s1.2), (s1.1, (perform PlaywrightStop s1.2).2)).
Proof.
  intros Ht Hstart Hopen Hsteps.
  destruct (automation_until_steps task_id t σ w w1 s0 Hstart Hopen) as [Hσ Hbody].
  unfold run_automation.
  rewrite (bind_Ok _ _ (σ, w) t (σ, w)) by (unfold lookup_task; simpl; by rewrite Ht).
  unfold try_except. rewrite Hbody.
  rewrite (bind_Raise _ _ _ _ _ Hsteps).
  unfold store_result, await, leaving. simpl.
  destruct (perform PlaywrightStop s1.2) as [[[]|e'] w3]; simpl;
    by destruct (is_exception _).
Qed.

(** An extract step that finds nothing returns and writes nothing. *)
Lemma exec_step_matches_nothing (l : loc) (i : nat) (step : dict) s w' :
  step_type_is step "extract" = true → matches_nothing step s.2 w' →
  exec_step l i step s = (Ok (), (s.1, w')).
Proof.
  intros Htype Hnothing. unfold exec_step.
  unfold step_type_is in *. destruct (step !! "type") as [[]|]; try done.
  apply bool_decide_eq_true in Htype as ->. simpl.
  unfold contains, getitem.
  destruct Hnothing as [(selector & Hsel & Hquery)|(Hsel & xpath & Hxpath & Hquery)].
  - rewrite Hsel. rewrite bool_decide_eq_true_2 by eauto.
    rewrite bind_lift_Ok. by rewrite (bind_await_Ok _ _ _ _ _ Hquery).
  - rewrite Hsel, Hxpath. rewrite bool_decide_eq_false_2 by (by intros [??]).
    rewrite bool_decide_eq_true_2 by eauto.
    rewrite bind_lift_Ok. by rewrite (bind_await_Ok _ _ _ _ _ Hquery).
Qed.



(** C6, as the code has it.  An extract step that matches nothing does not
    raise and writes nothing; the steps after it are run, from the very
    store the step found; and if they, the close and the exit go through,
    the run is completed and reports the step as it stood before its turn:
    with no result if it carried none, with the one it carried otherwise. *)
Theorem extract_without_match
    (task_id : string) (t : task) σ w w1 s0 pre step post s1 w' :
  tasks σ !! task_id = Some t →
  deref σ (task_steps t) = pre ++ step :: post →
  perform AsyncPlaywright w = (Ok (), w1) →
  open_page t (σ, w1) = (Ok (), s0) →
  for_steps (task_steps t) 0 pre s0 = (Ok (), s1) →
  step_type_is step "extract" = true →
  matches_nothing step s1.2 w' →
  exec_step (task_steps t) (length pre) step s1 = (Ok (), (s1.1, w'))
  ∧ for_steps (task_steps t) 0 (pre ++ step :: post) s0
    = for_steps (task_steps t) (S (length pre)) post (s1.1, w')
  ∧ ∀ s2 w2 w3,
      for_steps (task_steps t) (S (length pre)) post (s1.1, w') = (Ok (), s2) →
      perform BrowserClose s2.2 = (Ok (), w2) →
      perform PlaywrightStop w2 = (Ok (), w3) →
      let σ' := (run_automation task_id (σ, w)).2.1 in
      get_task_status task_id σ'
      = inr {| status_task_id := task_id; status := "completed"; progress := Some 1%Q;
               message := Some "Task execution completed" |}
      ∧ ∃ steps',
          get_task_result task_id σ'
          = inr {| result_task_id := task_id; result_status := "completed";
                   result := Some steps'; error := None |}
          ∧ steps' !! length pre = Some step.
Proof.
  intros Ht Hl Hstart Hopen Hpre Htype Hnothing.
  pose proof (exec_step_matches_nothing (task_steps t) (length pre) step s1 w'
                Htype Hnothing) as Hstep.
  assert (for_steps (task_steps t) 0 (pre ++ step :: post) s0
          = for_steps (task_steps t) (S (length pre)) post (s1.1, w')) as Hskip.
  { rewrite for_steps_app, (bind_Ok _ _ _ _ _ Hpre). simpl.
    by rewrite (bind_Ok _ _ _ _ _ Hstep). }
  split_and!; [done..|].
  intros s2 w2 w3 Hpost Hclose Hstop σ'. subst σ'.
  rewrite (run_automation_through task_id t σ w w1 s0 s2 w2 w3)
    by (try done; by rewrite Hl, Hskip).
  simpl.
  pose proof (silent_open_page t (σ, w1)) as Hsilent. rewrite Hopen in Hsilent.
  simpl in Hsilent.
  destruct (for_steps_spec pre (task_steps t) 0 s0 [] (step :: post))
    as (pre' & Hl1 & (Htasks1 & _) & Hattached); [by rewrite Hsilent|done|].
  rewrite Hpre in Hl1, Htasks1, Hattached. simpl in *.
  apply Forall2_length in Hattached.
  destruct (for_steps_spec post (task_steps t) (S (length pre)) (s1.1, w') (pre' ++ [step]) [])
    as (post' & Hl2 & (Htasks2 & _) & _).
  { simpl. by rewrite Hl1, app_nil_r, <-app_assoc. }
  { rewrite length_app. simpl. lia. }
  rewrite Hpost in Hl2, Htasks2. simpl in *.
  assert (is_Some (tasks s2.1 !! task_id)) as Hs2
    by (rewrite Htasks2, Htasks1, Hsilent; eauto).
  split; [by rewrite get_task_status_put_entry|].
  eexists. split; [by rewrite get_task_result_put_entry|].
  rewrite Hl2, app_nil_r, <-app_assoc, Hattached. simpl.
  by rewrite list_lookup_middle.
Qed.

End run_outcomes.


(** The run of the witness, read out. *)
Lemma run_completed_example :
  get_task_result "task_1"
    (run_automation "task_1" (registered shoot_and_read, full_page)).2.1
  = inr {| result_task_id := "task_1"; result_status := "completed";
           result := Some [<["result" := VDict [("screenshot", VStr "Zm9v")]]> screenshot_step;
                           <["result" := VDict [("text", VStr "Welcome")]]> extract_title];
           error := None |}.
Proof. vm_compute. reflexivity. Qed.

(** The scenario of the specification: navigate, type, click; three step
    records, no error, no step carrying a result. *)
Lemma run_login_example :
  get_task_result "task_1" (run_automation "task_1" (registered login, full_page)).2.1
  = inr {| result_task_id := "task_1"; result_status := "completed";
           result := Some [navigate_login; type_user; click_submit];
           error := None |}.
Proof. vm_compute. reflexivity. Qed.



(** The steps of the witness as [get_task] shows them after the run. *)
Lemma run_failed_at_step_example :
  zip_with reported [screenshot_step]
    (turns 0 0 [screenshot_step] (registered shoot_and_submit, bare_page))
  = [<["result" := VDict [("screenshot", VStr "Zm9v")]]> screenshot_step].
Proof. vm_compute. reflexivity. Qed.


Lemma extract_without_match_witness :
  let σ := registered read_title in
  let t := stored read_title 0 in
  exec_step (task_steps t) (length ([] : list dict)) extract_title (σ, bare_page)
  = (Ok (), (σ, bare_page))
  ∧ for_steps (task_steps t) 0 ([] ++ extract_title :: []) (σ, bare_page)
    = for_steps (task_steps t) (S (length ([] : list dict))) [] (σ, bare_page)
  ∧ ∀ s2 w2 w3,
      for_steps (task_steps t) (S (length ([] : list dict))) [] (σ, bare_page)
      = (Ok (), s2) →
      perform BrowserClose s2.2 = (Ok (), w2) →
      perform PlaywrightStop w2 = (Ok (), w3) →
      let σ' := (run_automation "task_1" (σ, bare_page)).2.1 in
      get_task_status "task_1" σ'
      = inr {| status_task_id := "task_1"; status := "completed"; progress := Some 1%Q;
               message := Some "Task execution completed" |}
      ∧ ∃ steps',
          get_task_result "task_1" σ'
          = inr {| result_task_id := "task_1"; result_status := "completed";
                   result := Some steps'; error := None |}
          ∧ steps' !! length ([] : list dict) = Some extract_title.
Proof.
  intros σ t.
  apply (extract_without_match "task_1" t σ bare_page bare_page (σ, bare_page)
           [] extract_title [] (σ, bare_page) bare_page);
    try (vm_compute; reflexivity).
  left. exists (VStr "h1"). split; vm_compute; reflexivity.
Defined.

(** The run of the witness: completed, the extract step without a result. *)
Lemma extract_without_match_example :
  get_task_result "task_1" (run_automation "task_1" (registered read_title, bare_page)).2.1
  = inr {| result_task_id := "task_1"; result_status := "completed";
           result := Some [extract_title]; error := None |}.
Proof. vm_compute. reflexivity. Qed.

(** Against C6 as stated: in a second run of the task the extract step
    matches nothing, and yet the result of this run shows the step with a
    result, the text the first run had found. *)
Lemma extract_reports_earlier_result :
  let σ1 := (run_automation "task_1" (registered read_title, full_page)).2.1 in
  let σ2 := (run_automation "task_1" (σ1, bare_page)).2.1 in
  perform (QuerySelector (VStr "h1")) bare_page = (Ok None, bare_page)
  ∧ get_task_result "task_1" σ2
    = inr {| result_task_id := "task_1"; result_status := "completed";
             result := Some [<["result" := VDict [("text", VStr "Welcome")]]> extract_title];
             error := None |}.
Proof. vm_compute. done. Qed.

(** * More of the task registry *)

(** ** Listing, status and result *)

(** [get_tasks] lists the registered tasks and nothing else: an entry is in
    the list exactly when [get_task] answers it for its identifier, there is
    one entry for each stored task, and no identifier comes twice. *)
Theorem get_tasks_get_task (σ : store) :
  (∀ v, v ∈ get_tasks σ ↔ get_task (view_id v) σ = inr v)
  ∧ length (get_tasks σ) = size (tasks σ)
  ∧ NoDup (view_id <$> get_tasks σ).
Proof.
  unfold get_tasks. split_and!.
  - intros v. rewrite list_elem_of_fmap. split.
    + intros ([k t] & -> & Hkt%elem_of_map_to_list). simpl.
      unfold get_task. by rewrite Hkt.
    + unfold get_task. destruct (tasks σ !! view_id v) as [t|] eqn:Ht; [|done].
      intros [= <-]. exists (view_id v, t). split; [done|]. simpl.
      by apply elem_of_map_to_list.
  - by rewrite length_fmap, length_map_to_list.
  - rewrite <-list_fmap_compose.
    replace (view_id ∘ _) with (@fst string task) by done.
    apply NoDup_fst_map_to_list.
Qed.

(** Status and result of a registered task tell the same story.  Without a
    stored result the result operation answers its own 404 and the status
    reads running at 0.5; with one, both give the same verdict at progress
    1.0, a completed one with the steps and no error, a failed one with the
    error, which is also the message of the status, and no steps. *)
Theorem status_and_result_agree (task_id : string) (σ : store) :
  is_Some (tasks σ !! task_id) →
  match get_task_result task_id σ with
  | inl err =>
      err = result_not_found task_id
      ∧ results σ !! task_id = None
      ∧ get_task_status task_id σ = inr (still_running task_id)
  | inr r =>
      ∃ st, get_task_status task_id σ = inr st
        ∧ status st = result_status r
        ∧ progress st = Some 1%Q
        ∧ ((status st = "completed" ∧ error r = None ∧ is_Some (result r))
           ∨ (status st = "failed" ∧ is_Some (error r) ∧ message st = error r
              ∧ result r = None))
  end.
Proof.
  intros [t Ht]. unfold get_task_result, get_task_status. rewrite Ht.
  destruct (results σ !! task_id) as [[l|msg]|]; simpl.
  - eexists. split_and!; [done..|]. left. eauto.
  - eexists. split_and!; [done..|]. right. eauto.
  - done.
Qed.

Lemma status_and_result_agree_witness :
  let σ := (run_automation "task_1" (registered shoot_and_submit, bare_page)).2.1 in
  is_Some (tasks σ !! "task_1")
  ∧ match get_task_result "task_1" σ with
    | inl err =>
        err = result_not_found "task_1"
        ∧ results σ !! "task_1" = None
        ∧ get_task_status "task_1" σ = inr (still_running "task_1")
    | inr r =>
        ∃ st, get_task_status "task_1" σ = inr st
          ∧ status st = result_status r
          ∧ progress st = Some 1%Q
          ∧ ((status st = "completed" ∧ error r = None ∧ is_Some (result r))
             ∨ (status st = "failed" ∧ is_Some (error r) ∧ message st = error r
                ∧ result r = None))
    end.
Proof.
  intros σ.
  assert (is_Some (tasks σ !! "task_1")) as Ht by (vm_compute; eauto).
  split; [exact Ht|]. exact (status_and_result_agree "task_1" σ Ht).
Defined.

(** ** How tasks, results and steps hang together *)

Lemma linked_empty : linked empty_store.
Proof.
  split; simpl.
  - intros task_id. rewrite lookup_empty, map_size_empty. split.
    + by intros [??].
    + intros (k & ? & _). lia.
  - intros a b ta tb Ha. by rewrite lookup_empty in Ha.
  - intros task_id l Hr. by rewrite lookup_empty in Hr.
Qed.

Lemma create_task_linked (task_config : TaskConfig) (σ : store) :
  well_formed σ → linked σ → linked (create_task task_config σ).2.
Proof.
  intros Hwf Hlinked. pose proof (next_id_fresh σ Hwf) as Hfresh.
  pose proof (create_task_tasks_size task_config σ Hwf) as Hsize.
  assert (∀ task_id t, tasks σ !! task_id = Some t →
                       task_steps t ≠ fresh (dom (heap σ))) as Hold.
  { intros task_id t Ht Hl. destruct (wf_steps σ Hwf task_id t Ht) as [steps Hsteps].
    apply (is_fresh (dom (heap σ))). rewrite <-Hl. by apply elem_of_dom. }
  split.
  - intros task_id. rewrite Hsize. simpl. rewrite lookup_insert. case_decide as Hid.
    + split; [|eauto]. intros _. exists (size (tasks σ) + 1)%nat. split; [lia|done].
    + rewrite (linked_ids σ Hlinked). split.
      * intros (k & ? & ->). exists k. split; [lia|done].
      * intros (k & ? & ->). exists k. split; [|done].
        destruct (decide (k = size (tasks σ) + 1)%nat) as [->|]; [done|lia].
  - simpl. intros a b ta tb. rewrite !lookup_insert.
    repeat case_decide; simplify_eq; try done.
    + intros [= <-] Hb Hl. simpl in Hl. by destruct (Hold b tb Hb).
    + intros Ha [= <-] Hl. simpl in Hl. by destruct (Hold a ta Ha).
    + apply (linked_steps σ Hlinked).
  - simpl. intros task_id l Hr.
    destruct (linked_results σ Hlinked task_id l Hr) as (t & Ht & Hl).
    exists t. split; [|done]. rewrite lookup_insert_ne; [done|]. congruence.
Qed.

Lemma steps_only_linked (l : loc) (σ σ' : store) :
  steps_only l σ σ' → linked σ → linked σ'.
Proof.
  intros (Ht & Hr & _) Hlinked. split.
  - rewrite Ht. apply (linked_ids σ Hlinked).
  - rewrite Ht. apply (linked_steps σ Hlinked).
  - rewrite Ht, Hr. apply (linked_results σ Hlinked).
Qed.

Lemma put_entry_linked (task_id : string) (t : task) (r : result_entry) (σ : store) :
  tasks σ !! task_id = Some t →
  (∀ l, r = ResultSteps l → l = task_steps t) →
  linked σ → linked (put_entry task_id r σ).
Proof.
  intros Ht Hr Hlinked. split; simpl;
    [apply (linked_ids σ Hlinked)|apply (linked_steps σ Hlinked)|].
  intros task_id' l. rewrite lookup_insert. case_decide; subst.
  - intros [= ->]. exists t. split; [done|]. symmetry. by apply Hr.
  - apply (linked_results σ Hlinked).
Qed.

Section links.
Context {W : Type} `{!Provider W}.
Implicit Types (p : process) (evs : list (event (W:=W))) (w : W).

Lemma run_automation_linked (task_id : string) (t : task) (σ : store) w :
  tasks σ !! task_id = Some t → linked σ → linked (run_automation task_id (σ, w)).2.1.
Proof.
  intros Ht Hlinked.
  destruct (run_automation_frame task_id t σ w Ht)
    as (σ1 & Hframe & _ & [-> | (r & -> & Hr)]); [by eapply steps_only_linked|].
  apply (put_entry_linked task_id t); [|done|].
  - destruct Hframe as (-> & _). done.
  - by eapply steps_only_linked.
Qed.

Lemma handle_linked p (ev : event) :
  in_order p → linked (registry p) → linked (registry (handle p ev).2).
Proof.
  intros [Hwf Hrun] Hlinked.
  destruct ev as [task_config|task_id|task_id|task_id|task_id|k w]; simpl; try done.
  - by apply create_task_linked.
  - by destruct (execute_task task_id (registry p)).
  - destruct (running p !! k) as [task_id|] eqn:Hk; [|done].
    destruct (Hrun task_id) as [t Ht]; [by eapply list_elem_of_lookup_2|].
    pose proof (run_automation_linked task_id t (registry p) w Ht Hlinked) as Hlinked'.
    by destruct (run_automation task_id (registry p, w)) as [r [σ' w']].
Qed.

Lemma serve_linked evs p :
  in_order p → linked (registry p) → linked (registry (serve p evs).2).
Proof.
  revert p. induction evs as [|ev evs IH]; intros p Hp Hlinked; [done|]. simpl.
  pose proof (handle_in_order p ev Hp) as Hp'.
  pose proof (handle_linked p ev Hp Hlinked) as Hlinked'.
  destruct (handle p ev) as [r p']. specialize (IH p' Hp' Hlinked').
  by destruct (serve p' evs).
Qed.

Lemma reachable_linked p : reachable (W:=W) p → linked (registry p).
Proof. intros [evs <-]. apply serve_linked; [apply startup_in_order|apply linked_empty]. Qed.

End links.

Section registry_more.
Context {W : Type} `{!Provider W}.
Implicit Types (p : process) (evs : list (event (W:=W))) (w : W).

(** The steps a completed result shows are the steps of the definition, the
    very list and not a copy: at any moment of a process the result
    operation and [get_task] answer the same steps for a task, later writes
    of later runs included. *)
Theorem result_shows_definition p (task_id : string) (r : TaskResult) (steps : list dict) :
  reachable (W:=W) p →
  get_task_result task_id (registry p) = inr r →
  result r = Some steps →
  ∃ v, get_task task_id (registry p) = inr v ∧ view_steps v = steps.
Proof.
  intros Hlinked%reachable_linked. unfold get_task_result, get_task.
  destruct (tasks (registry p) !! task_id) as [t|] eqn:Ht; [|done].
  destruct (results (registry p) !! task_id) as [[l|msg]|] eqn:Hr;
    [|by intros [= <-]|done].
  intros [= <-]. simpl. intros [= <-].
  destruct (linked_results _ Hlinked task_id l Hr) as (t' & Ht' & <-).
  rewrite Ht in Ht'. injection Ht' as <-. eauto.
Qed.

(** A run is no concern of the other tasks: when the run of a task ends,
    definition, status and result of every other task read as before. *)
Theorem run_leaves_other_tasks p (k : nat) w (a b : string) :
  reachable (W:=W) p →
  running p !! k = Some a →
  b ≠ a →
  let σ' := registry (handle p (RunEnds k w)).2 in
  get_task b σ' = get_task b (registry p)
  ∧ get_task_status b σ' = get_task_status b (registry p)
  ∧ get_task_result b σ' = get_task_result b (registry p).
Proof.
  intros Hreach Hk Hne σ'. subst σ'.
  pose proof (reachable_linked p Hreach) as Hlinked.
  destruct (reachable_in_order p Hreach) as [Hwf Hrun].
  destruct (Hrun a) as [t Ht]; [by eapply list_elem_of_lookup_2|].
  simpl. rewrite Hk.
  destruct (run_automation_frame a t (registry p) w Ht)
    as (σ1 & (Htasks & Hresults & Hheap & _) & _ & Hout).
  destruct (run_automation a (registry p, w)) as [r [σ' w']]. cbn [fst snd registry] in *.
  assert (tasks σ' = tasks (registry p)) as Htasks'
    by (by destruct Hout as [-> | (r' & -> & _)]).
  assert (results σ' !! b = results (registry p) !! b) as Hresults'.
  { destruct Hout as [-> | (r' & -> & _)]; simpl; [by rewrite Hresults|].
    by rewrite lookup_insert_ne, Hresults. }
  assert (∀ tb, tasks (registry p) !! b = Some tb →
                deref σ' (task_steps tb) = deref (registry p) (task_steps tb)) as Hsteps.
  { intros tb Hb. unfold deref.
    assert (heap σ' = heap σ1) as -> by (by destruct Hout as [-> | (r' & -> & _)]).
    rewrite Hheap; [done|].
    intros Hl. apply Hne. by apply (linked_steps _ Hlinked b a tb t). }
  unfold get_task, get_task_status, get_task_result.
  rewrite Htasks', Hresults'.
  destruct (tasks (registry p) !! b) as [tb|] eqn:Hb; [|done].
  split_and!; [by rewrite Hsteps|done|].
  destruct (results (registry p) !! b) as [[l|msg]|] eqn:Hr; [|done..].
  destruct (linked_results _ Hlinked b l Hr) as (tb' & Hb' & <-).
  rewrite Hb in Hb'. injection Hb' as <-. unfold entry_result. by rewrite Hsteps.
Qed.

(** The identifiers in use are [task_1] ... [task_n], [n] the number of
    stored tasks, and [get_tasks] lists just these: [get_task] finds a task
    exactly under these identifiers. *)
Theorem task_ids_dense p :
  reachable (W:=W) p →
  let n := size (tasks (registry p)) in
  (∀ task_id, (∃ v, get_task task_id (registry p) = inr v)
              ↔ ∃ k, (1 ≤ k ≤ n)%nat ∧ task_id = nth_task_id k)
  ∧ view_id <$> get_tasks (registry p) ≡ₚ nth_task_id <$> seq 1 n.
Proof.
  intros Hlinked%reachable_linked n. subst n.
  assert (∀ task_id, (∃ v, get_task task_id (registry p) = inr v)
                     ↔ ∃ k, (1 ≤ k ≤ size (tasks (registry p)))%nat
                            ∧ task_id = nth_task_id k) as Hids.
  { intros task_id. rewrite <-(linked_ids _ Hlinked). unfold get_task.
    destruct (tasks (registry p) !! task_id); split; intros [??]; eauto; done. }
  split; [done|].
  destruct (get_tasks_get_task (registry p)) as (Hin & _ & Hnodup).
  apply NoDup_Permutation; [done| |].
  { apply NoDup_fmap; [intros ??; apply task_id_inj|apply NoDup_seq]. }
  intros task_id. rewrite !list_elem_of_fmap. split.
  - intros (v & -> & Hv%Hin). destruct (proj1 (Hids (view_id v))) as (k & ? & ->); [eauto|].
    exists k. split; [done|]. apply elem_of_seq. lia.
  - intros (k & -> & Hk%elem_of_seq).
    destruct (proj2 (Hids (nth_task_id k))) as [v Hv]; [exists k; split; [lia|done]|].
    assert (view_id v = nth_task_id k) as Hid.
    { unfold get_task in Hv. destruct (tasks (registry p) !! nth_task_id k); [|done].
      by injection Hv as <-. }
    exists v. split; [done|]. apply Hin. by rewrite Hid.
Qed.

(** A task just registered: it is listed, its execution is accepted, and
    the result operation answers the 404 of a missing result, which says the
    task may still be running although no run was started. *)
Theorem created_task_has_no_result p (task_config : TaskConfig) :
  reachable (W:=W) p →
  let '(c, σ) := create_task task_config (registry p) in
  get_task_result (created_task_id c) σ = inl (result_not_found (created_task_id c))
  ∧ execute_task (created_task_id c) σ = inr (started (created_task_id c))
  ∧ created_task_id c ∈ view_id <$> get_tasks σ.
Proof.
  intros [Hwf _]%reachable_in_order.
  pose proof (next_id_fresh _ Hwf) as Hfresh.
  destruct (create_task task_config (registry p)) as [c σ] eqn:Hc.
  injection Hc as <- <-. cbn [created_task_id].
  assert (results (registry p) !! ("task_" +:+ pretty (size (tasks (registry p)) + 1)%nat)
          = None) as Hnone.
  { destruct (results (registry p) !! _) eqn:Hr; [|done].
    destruct (wf_results _ Hwf _ (mk_is_Some _ _ Hr)) as [t Ht]. congruence. }
  unfold get_task_result, execute_task. cbn [tasks results].
  rewrite lookup_insert_eq, Hnone. split_and!; [done..|].
  apply list_elem_of_fmap. eexists (task_view _ _ _). split; [done|].
  apply get_tasks_get_task. unfold get_task. cbn [tasks view_id task_view].
  by rewrite lookup_insert_eq.
Qed.

End registry_more.

Lemma after_one_run_reachable : reachable (W:=page) after_one_run.
Proof. by eexists. Qed.

Lemma two_tasks_reachable : reachable (W:=page) two_tasks.
Proof. by eexists. Qed.

Lemma result_shows_definition_witness :
  let r := {| result_task_id := "task_1"; result_status := "completed";
              result := Some [<["result" := VDict [("screenshot", VStr "Zm9v")]]> screenshot_step;
                              <["result" := VDict [("text", VStr "Welcome")]]> extract_title];
              error := None |} in
  get_task_result "task_1" (registry after_one_run) = inr r
  ∧ ∃ v, get_task "task_1" (registry after_one_run) = inr v
         ∧ Some (view_steps v) = result r.
Proof.
  intros r.
  assert (get_task_result "task_1" (registry after_one_run) = inr r) as Hr
    by (vm_compute; reflexivity).
  split; [exact Hr|].
  destruct (result_shows_definition (W:=page) after_one_run "task_1" r _
              after_one_run_reachable Hr eq_refl) as (v & Hv & Hsteps).
  exists v. split; [exact Hv|]. by rewrite Hsteps.
Defined.

Lemma run_leaves_other_tasks_witness :
  running two_tasks !! 0%nat = Some "task_1"
  ∧ let σ' := registry (handle two_tasks (RunEnds 0 bare_page)).2 in
    get_task "task_2" σ' = get_task "task_2" (registry two_tasks)
    ∧ get_task_status "task_2" σ' = get_task_status "task_2" (registry two_tasks)
    ∧ get_task_result "task_2" σ' = get_task_result "task_2" (registry two_tasks).
Proof.
  assert (running two_tasks !! 0%nat = Some "task_1") as Hk by (vm_compute; reflexivity).
  split; [exact Hk|].
  apply (run_leaves_other_tasks (W:=page) two_tasks 0 bare_page "task_1" "task_2"
           two_tasks_reachable Hk).
  discriminate.
Defined.

Lemma task_ids_dense_witness :
  let n := size (tasks (registry two_tasks)) in
  (∀ task_id, (∃ v, get_task task_id (registry two_tasks) = inr v)
              ↔ ∃ k, (1 ≤ k ≤ n)%nat ∧ task_id = nth_task_id k)
  ∧ view_id <$> get_tasks (registry two_tasks) ≡ₚ nth_task_id <$> seq 1 n.
Proof. exact (task_ids_dense (W:=page) two_tasks two_tasks_reachable). Defined.

Lemma created_task_has_no_result_witness :
  let '(c, σ) := create_task login (registry two_tasks) in
  get_task_result (created_task_id c) σ = inl (result_not_found (created_task_id c))
  ∧ execute_task (created_task_id c) σ = inr (started (created_task_id c))
  ∧ created_task_id c ∈ view_id <$> get_tasks σ.
Proof. exact (created_task_has_no_result (W:=page) two_tasks login two_tasks_reachable). Defined.

Lemma run_returns_or_is_cancelled_witness :
  running two_tasks !! 0%nat = Some "task_1"
  ∧ ∃ r, (handle two_tasks (RunEnds 0 bare_page)).1 = RunEnded "task_1" r
      ∧ match r with
        | Ok _ =>
            is_Some (results (registry (handle two_tasks (RunEnds 0 bare_page)).2) !! "task_1")
        | Raise e =>
            is_exception e = false
            ∧ ∃ t, tasks (registry two_tasks) !! "task_1" = Some t
                   ∧ (automation "task_1" t (registry two_tasks, bare_page)).1 = Raise e
        end.
Proof.
  assert (running two_tasks !! 0%nat = Some "task_1") as Hk by (vm_compute; reflexivity).
  split; [exact Hk|].
  exact (run_returns_or_is_cancelled (W:=page) two_tasks 0 bare_page "task_1"
           two_tasks_reachable Hk).
Defined.

(** ** Along the history of a process *)

Lemma touched_same_but_result (steps steps' : list dict) :
  Forall2 touched steps steps' → Forall2 same_but_result steps steps'.
Proof.
  intros H. eapply Forall2_impl; [done|]. intros step step' [->|(o & _ & ->)]; [done|].
  destruct o as [v|]; [|done]. unfold same_but_result. simpl. by rewrite delete_insert_eq.
Qed.

Lemma same_definition_refl (v : TaskView) : same_definition v v.
Proof.
  split_and!; try done. apply Forall2_same_length_lookup_2; [done|].
  intros ??? ??. unfold same_but_result. congruence.
Qed.

Lemma same_definition_trans (v1 v2 v3 : TaskView) :
  same_definition v1 v2 → same_definition v2 v3 → same_definition v1 v3.
Proof.
  intros (?&?&?&?&?&H12) (?&?&?&?&?&H23). split_and!; try congruence.
  eapply Forall2_trans; [|done..]. unfold same_but_result. congruence.
Qed.

Section histories.
Context {W : Type} `{!Provider W}.
Implicit Types (p : process) (evs : list (event (W:=W))) (w : W).

Lemma handle_definition p (ev : event) (task_id : string) (v : TaskView) :
  in_order p →
  get_task task_id (registry p) = inr v →
  ∃ v', get_task task_id (registry (handle p ev).2) = inr v' ∧ same_definition v v'.
Proof.
  intros [Hwf Hrun] Hv.
  assert (is_Some (tasks (registry p) !! task_id)) as Hsome.
  { unfold get_task in Hv. by destruct (tasks (registry p) !! task_id). }
  destruct ev as [task_config|task_id'|task_id'|task_id'|task_id'|k w];
    try (exists v; split; [done|apply same_definition_refl]).
  - exists v. split; [|apply same_definition_refl].
    change (registry (handle p (CreateTask task_config)).2)
      with (create_task task_config (registry p)).2.
    by rewrite (create_task_get_task task_config (registry p) task_id Hwf Hsome).
  - exists v. split; [|apply same_definition_refl]. simpl.
    by destruct (execute_task task_id' (registry p)).
  - simpl. destruct (running p !! k) as [task_id'|] eqn:Hk;
      [|exists v; split; [done|apply same_definition_refl]].
    destruct (Hrun task_id') as [t' Ht']; [by eapply list_elem_of_lookup_2|].
    destruct (run_automation_frame task_id' t' (registry p) w Ht')
      as (σ1 & (Htasks & _ & Hheap & _) & Htouched & Hout).
    destruct (run_automation task_id' (registry p, w)) as [r [σ' w']].
    cbn [fst snd registry] in *.
    assert (tasks σ' = tasks σ1 ∧ ∀ l, deref σ' l = deref σ1 l) as [Htasks' Hderef]
      by (by destruct Hout as [-> | (r' & -> & _)]).
    destruct Hsome as [t Ht]. unfold get_task in *.
    rewrite Htasks', Htasks, Ht. rewrite Ht in Hv. injection Hv as <-.
    eexists. split; [done|]. split_and!; try done. cbn [view_steps]. rewrite Hderef.
    destruct (decide (task_steps t = task_steps t')) as [->|Hne].
    + by apply touched_same_but_result.
    + unfold deref at 2. rewrite Hheap by done. fold (deref (registry p) (task_steps t)).
      apply (same_definition_refl (task_view (registry p) task_id t)).
Qed.

(** Nothing removes or renames a task: whatever happens in the process
    after a task is registered, [get_task] keeps finding it, with its
    identifier, name, description, URL and schedule, and with its steps in
    their number and order, each of them unchanged but for its ["result"]
    entry. *)
Theorem definition_persists p evs (task_id : string) (v : TaskView) :
  reachable (W:=W) p →
  get_task task_id (registry p) = inr v →
  ∃ v', get_task task_id (registry (serve p evs).2) = inr v' ∧ same_definition v v'.
Proof.
  intros Hp%reachable_in_order. revert p v Hp.
  induction evs as [|ev evs IH]; intros p v Hp Hv.
  { exists v. split; [done|apply same_definition_refl]. }
  cbn [serve]. destruct (handle_definition p ev task_id v Hp Hv) as (v1 & Hv1 & H1).
  pose proof (handle_in_order p ev Hp) as Hp'.
  destruct (handle p ev) as [r p']. cbn [snd] in *.
  destruct (IH p' v1 Hp' Hv1) as (v2 & Hv2 & H2).
  destruct (serve p' evs) as [rs p'']. cbn [snd] in *.
  exists v2. split; [done|]. by eapply same_definition_trans.
Qed.

Lemma handle_runs p (ev : event) :
  let '(r, p') := handle p ev in
  accepted [r] ++ running p ≡ₚ ended [r] ++ running p'.
Proof.
  destruct ev as [task_config|task_id|task_id|task_id|task_id|k w]; simpl; try done.
  - unfold execute_task. destruct (tasks (registry p) !! task_id); simpl; [|done].
    unfold accepted, ended. simpl. by rewrite (comm (++) _ [task_id]).
  - destruct (running p !! k) as [task_id|] eqn:Hk; [|done].
    destruct (run_automation task_id (registry p, w)) as [r s]. simpl.
    unfold accepted, ended. simpl. by apply delete_Permutation.
Qed.

(** Every run is accounted for: at any moment, the executions accepted so
    far are the runs that have ended and the runs in progress, each counted
    as often as it was accepted.  So a run ends, and a result is written,
    only for an execution that was accepted, and once for each. *)
Theorem runs_accounted evs :
  let '(rs, p) := serve (W:=W) startup evs in
  accepted rs ≡ₚ ended rs ++ running p.
Proof.
  assert (∀ p, let '(rs, p') := serve p evs in
               accepted rs ++ running p ≡ₚ ended rs ++ running p') as Hgen.
  { induction evs as [|ev evs IH]; intros p; [simpl; reflexivity|].
    cbn [serve]. pose proof (handle_runs p ev) as Hev.
    destruct (handle p ev) as [r p']. specialize (IH p').
    destruct (serve p' evs) as [rs p'']. rewrite accepted_cons, ended_cons.
    rewrite <-!(assoc (++)).
    rewrite (Permutation_app_comm (accepted rs)), (assoc (++)), Hev.
    rewrite <-!(assoc (++)). f_equiv.
    by rewrite (Permutation_app_comm (running p')), IH. }
  specialize (Hgen startup). destruct (serve startup evs) as [rs p].
  by rewrite app_nil_r in Hgen.
Qed.

End histories.

Lemma definition_persists_witness :
  let evs := [RunEnds 0 bare_page; CreateTask login; ExecuteTask "task_2"] in
  ∃ v, get_task "task_1" (registry two_tasks) = inr v
       ∧ ∃ v', get_task "task_1" (registry (serve two_tasks evs).2) = inr v'
               ∧ same_definition v v'.
Proof.
  intros evs.
  destruct (get_task "task_1" (registry two_tasks)) as [err|v] eqn:Hv.
  { vm_compute in Hv. discriminate Hv. }
  exists v. split; [reflexivity|].
  exact (definition_persists (W:=page) two_tasks evs "task_1" v two_tasks_reachable Hv).
Defined.

(** ** Steps *)

Section steps_more.
Context {W : Type} `{!Provider W}.
Implicit Types (s : store * W) (σ : store) (w : W).

(** [exec_step] turns no step down: a step of a kind it does not know, or
    a click, wait or extract step without any of its keys, is passed over
    without a call to the browser and without a trace; the loop goes on with
    the next step as if it were not there. *)
Theorem step_without_branch_is_skipped (l : loc) (i : nat) (step : dict) (rest : list dict) s :
  no_branch step →
  exec_step l i step s = (Ok (), s)
  ∧ for_steps l i (step :: rest) s = for_steps l (S i) rest s.
Proof.
  intros Hstep.
  assert (exec_step l i step s = (Ok (), s)) as Hskip.
  { unfold exec_step, contains.
    destruct Hstep as [Hkind|[(Hkind & H1 & H2)|[(Hkind & H1 & H2)|(Hkind & H1 & H2)]]].
    - rewrite !Hkind; [done|set_solver..].
    - unfold step_type_is in *. destruct (step !! "type") as [[]|]; try done.
      apply bool_decide_eq_true in Hkind as ->. simpl. rewrite H1, H2.
      by rewrite !bool_decide_eq_false_2 by (by intros [??]).
    - unfold step_type_is in *. destruct (step !! "type") as [[]|]; try done.
      apply bool_decide_eq_true in Hkind as ->. simpl. rewrite H1, H2.
      by rewrite !bool_decide_eq_false_2 by (by intros [??]).
    - unfold step_type_is in *. destruct (step !! "type") as [[]|]; try done.
      apply bool_decide_eq_true in Hkind as ->. simpl. rewrite H1, H2.
      by rewrite !bool_decide_eq_false_2 by (by intros [??]). }
  split; [done|]. simpl. by rewrite (bind_Ok _ _ _ _ _ Hskip).
Qed.

(** A step that raises after the steps before it went through. *)
Lemma run_automation_step_raises
    (task_id : string) (t : task) σ w w1 s0 pre step post s1 e s2 :
  tasks σ !! task_id = Some t →
  deref σ (task_steps t) = pre ++ step :: post →
  perform AsyncPlaywright w = (Ok (), w1) →
  open_page t (σ, w1) = (Ok (), s0) →
  for_steps (task_steps t) 0 pre s0 = (Ok (), s1) →
  exec_step (task_steps t) (length pre) step s1 = (Raise e, s2) →
  is_exception (leaving e s2.2) = true →
  run_automation task_id (σ, w)
  = (Ok (), (put_entry task_id (ResultError (str (leaving e s2.2))) s2.1,
             (perform PlaywrightStop s2.2).2)).
Proof.
  intros Ht Hl Hstart Hopen Hpre Hstep He.
  rewrite (run_automation_aborted task_id t σ w w1 s0 e s2), He; try done.
  rewrite Hl, for_steps_app, (bind_Ok _ _ _ _ _ Hpre). simpl.
  by rewrite (bind_Raise _ _ _ _ _ Hstep).
Qed.

Lemma exec_step_lacks (l : loc) (i : nat) (step : dict) (key : string) s :
  lacks step key → exec_step l i step s = (Raise (KeyError key), s).
Proof.
  intros Hlacks. unfold exec_step, getitem.
  destruct Hlacks as [(Hkind & -> & H1)|[(Hkind & -> & H1)|[(Hkind & -> & [v H1] & H2)
                     |(Hkind & -> & H1)]]];
    unfold step_type_is in *; destruct (step !! "type") as [[]|]; try done;
    apply bool_decide_eq_true in Hkind as ->; simpl.
  - by rewrite H1.
  - by rewrite H1.
  - by rewrite H1, H2.
  - by rewrite H1.
Qed.

(** A navigate step without ["url"], a type step without ["selector"] or
    ["text"], a select step without ["selector"]: the step raises the
    [KeyError] before the browser is called, and the run ends failed with
    the name of the key, in quotes, for its whole error message. *)
Theorem missing_key_fails_run
    (task_id : string) (t : task) σ w w1 s0 pre step post s1 (key : string) w3 :
  tasks σ !! task_id = Some t →
  deref σ (task_steps t) = pre ++ step :: post →
  perform AsyncPlaywright w = (Ok (), w1) →
  open_page t (σ, w1) = (Ok (), s0) →
  for_steps (task_steps t) 0 pre s0 = (Ok (), s1) →
  lacks step key →
  perform PlaywrightStop s1.2 = (Ok (), w3) →
  exec_step (task_steps t) (length pre) step s1 = (Raise (KeyError key), s1)
  ∧ get_task_status task_id (run_automation task_id (σ, w)).2.1
    = inr {| status_task_id := task_id; status := "failed"; progress := Some 1%Q;
             message := Some ("'" +:+ key +:+ "'") |}.
Proof.
  intros Ht Hl Hstart Hopen Hpre Hlacks Hstop.
  pose proof (exec_step_lacks (task_steps t) (length pre) step key s1 Hlacks) as Hstep.
  split; [done|].
  rewrite (run_automation_step_raises task_id t σ w w1 s0 pre step post s1 _ s1)
    by (try done; unfold leaving; by rewrite Hstop).
  cbn [fst snd]. unfold leaving. rewrite Hstop. cbn [fst].
  pose proof (silent_open_page t (σ, w1)) as Hsilent. rewrite Hopen in Hsilent.
  simpl in Hsilent.
  destruct (for_steps_spec pre (task_steps t) 0 s0 [] (step :: post))
    as (pre' & _ & (Htasks & _) & _); [by rewrite Hsilent|done|].
  rewrite Hpre in Htasks. simpl in Htasks.
  rewrite get_task_status_put_entry; [done|]. rewrite Htasks, Hsilent. eauto.
Qed.

(** A click by coordinates takes exactly two values: the mouse is clicked
    at [x], [y] when ["coordinates"] holds just these two, and otherwise the
    step raises without a click. *)
Theorem click_coordinates_unpacked (l : loc) (i : nat) (step : dict) (v : val) s :
  step_type_is step "click" = true →
  step !! "selector" = None →
  step !! "coordinates" = Some v →
  (∀ x y, iterate v = Some [x; y] → exec_step l i step s = await (MouseClick x y) s)
  ∧ ((∀ x y, iterate v ≠ Some [x; y]) → ∃ e, exec_step l i step s = (Raise e, s)).
Proof.
  intros Hkind Hsel Hxy.
  assert (exec_step l i step s
          = bind (lift (unpack2 v)) (λ xy, await (MouseClick xy.1 xy.2)) s) as ->.
  { unfold exec_step, contains, getitem.
    unfold step_type_is in *. destruct (step !! "type") as [[]|]; try done.
    apply bool_decide_eq_true in Hkind as ->. simpl. rewrite Hsel, Hxy.
    rewrite bool_decide_eq_false_2 by (by intros [??]).
    by rewrite bool_decide_eq_true_2 by eauto. }
  unfold unpack2. split.
  - by intros x y ->.
  - intros Hnot. destruct (iterate v) as [[|x [|y [|z vs]]]|]; try (by eexists).
    by destruct (Hnot x y).
Qed.

(** An extract by XPath goes through [page.xpath].  When that raises, as
    it does on the [Page] of Playwright, which has no such method, the step
    raises the same and attaches nothing, and the run ends failed with the
    string of that exception for its message. *)
Theorem extract_xpath_raises
    (task_id : string) (t : task) σ w w1 s0 pre step post s1 (xpath : val) e w2 w3 :
  tasks σ !! task_id = Some t →
  deref σ (task_steps t) = pre ++ step :: post →
  perform AsyncPlaywright w = (Ok (), w1) →
  open_page t (σ, w1) = (Ok (), s0) →
  for_steps (task_steps t) 0 pre s0 = (Ok (), s1) →
  step_type_is step "extract" = true →
  step !! "selector" = None →
  step !! "xpath" = Some xpath →
  perform (XPath xpath) s1.2 = (Raise e, w2) →
  is_exception e = true →
  perform PlaywrightStop w2 = (Ok (), w3) →
  exec_step (task_steps t) (length pre) step s1 = (Raise e, (s1.1, w2))
  ∧ get_task_status task_id (run_automation task_id (σ, w)).2.1
    = inr {| status_task_id := task_id; status := "failed"; progress := Some 1%Q;
             message := Some (str e) |}.
Proof.
  intros Ht Hl Hstart Hopen Hpre Hkind Hsel Hxpath Hquery He Hstop.
  assert (exec_step (task_steps t) (length pre) step s1 = (Raise e, (s1.1, w2))) as Hstep.
  { unfold exec_step, contains, getitem.
    unfold step_type_is in *. destruct (step !! "type") as [[]|]; try done.
    apply bool_decide_eq_true in Hkind as ->. simpl. rewrite Hsel, Hxpath.
    rewrite bool_decide_eq_false_2 by (by intros [??]).
    rewrite bool_decide_eq_true_2 by eauto.
    by rewrite bind_lift_Ok, (bind_await_Raise _ _ _ _ _ Hquery). }
  split; [done|].
  rewrite (run_automation_step_raises task_id t σ w w1 s0 pre step post s1 _ (s1.1, w2))
    by (try done; unfold leaving; cbn [snd]; by rewrite Hstop).
  cbn [fst snd]. unfold leaving. rewrite Hstop. cbn [fst].
  pose proof (silent_open_page t (σ, w1)) as Hsilent. rewrite Hopen in Hsilent.
  simpl in Hsilent.
  destruct (for_steps_spec pre (task_steps t) 0 s0 [] (step :: post))
    as (pre' & _ & (Htasks & _) & _); [by rewrite Hsilent|done|].
  rewrite Hpre in Htasks. simpl in Htasks.
  rewrite get_task_status_put_entry; [done|]. rewrite Htasks, Hsilent. eauto.
Qed.

End steps_more.

Lemma step_without_branch_is_skipped_witness :
  let s := (registered login, full_page) in
  no_branch scroll_step
  ∧ exec_step 0 0 scroll_step s = (Ok (), s)
  ∧ for_steps 0 0 (scroll_step :: [click_submit]) s = for_steps 0 1 [click_submit] s.
Proof.
  intros s.
  assert (no_branch scroll_step) as Hstep.
  { left. intros kind Hin.
    repeat (apply elem_of_cons in Hin as [->|Hin]; [vm_compute; reflexivity|]).
    by apply elem_of_nil in Hin. }
  split; [exact Hstep|].
  exact (step_without_branch_is_skipped 0 0 scroll_step [click_submit] s Hstep).
Defined.

Lemma missing_key_fails_run_witness :
  let σ := registered shoot_and_get_lost in
  let s1 := (put_result 0 0 (VDict [("screenshot", VStr "Zm9v")]) σ, full_page) in
  lacks navigate_nowhere "url"
  ∧ exec_step 0 1 navigate_nowhere s1 = (Raise (KeyError "url"), s1)
  ∧ get_task_status "task_1" (run_automation "task_1" (σ, full_page)).2.1
    = inr {| status_task_id := "task_1"; status := "failed"; progress := Some 1%Q;
             message := Some ("'" +:+ "url" +:+ "'") |}.
Proof.
  intros σ s1.
  assert (lacks navigate_nowhere "url") as Hlacks.
  { left. split_and!; vm_compute; reflexivity. }
  split; [exact Hlacks|].
  apply (missing_key_fails_run "task_1" (stored shoot_and_get_lost 0) σ full_page full_page
           (σ, full_page) [screenshot_step] navigate_nowhere [] s1 "url" full_page);
    try exact Hlacks; vm_compute; reflexivity.
Defined.

Lemma click_coordinates_unpacked_witness :
  let s := (registered login, full_page) in
  (∀ x y, iterate (VList [VInt 10; VInt 20]) = Some [x; y] →
          exec_step 0 0 click_at s = await (MouseClick x y) s)
  ∧ ((∀ x y, iterate (VList [VInt 10; VInt 20]) ≠ Some [x; y]) →
     ∃ e, exec_step 0 0 click_at s = (Raise e, s)).
Proof.
  intros s.
  apply (click_coordinates_unpacked 0 0 click_at (VList [VInt 10; VInt 20]) s);
    vm_compute; reflexivity.
Defined.

Lemma extract_xpath_raises_witness :
  let σ := registered (task_of "items" [extract_items]) in
  let e := AttributeError "'Page' object has no attribute 'xpath'" in
  exec_step 0 (length ([] : list dict)) extract_items (σ, full_page)
  = (Raise e, (σ, full_page))
  ∧ get_task_status "task_1" (run_automation "task_1" (σ, full_page)).2.1
    = inr {| status_task_id := "task_1"; status := "failed"; progress := Some 1%Q;
             message := Some (str e) |}.
Proof.
  intros σ e.
  apply (extract_xpath_raises "task_1" (stored (task_of "items" [extract_items]) 0) σ
           full_page full_page (σ, full_page) [] extract_items [] (σ, full_page)
           (VStr "//li") e full_page full_page);
    vm_compute; reflexivity.
Defined.

(** ** The encoded image *)

Lemma b64_digit_character (n : N) :
  ∃ c, b64_digit n = String c EmptyString ∧ c ∈ b64_characters.
Proof.
  unfold b64_digit.
  assert (N.to_nat (n mod 64) < 64)%nat as Hk.
  { pose proof (N.mod_upper_bound n 64). lia. }
  generalize dependent (N.to_nat (n mod 64)). intros k Hk.
  do 64 (destruct k as [|k];
         [eexists; split; [reflexivity|apply (bool_decide_unpack _); vm_compute; exact I]|]).
  lia.
Qed.

Ltac characters :=
  repeat (apply Forall_cons; split;
          [first [assumption | apply (bool_decide_unpack _); vm_compute; exact I]|]);
  first [assumption | apply Forall_nil_2].

(** The text stored for a screenshot of [n] bytes has [4 * ceil (n / 3)]
    characters, all of them among the 64 of the alphabet and [=]: plain
    ASCII, so that decoding it as UTF-8 cannot fail. *)
Theorem b64encode_shape (bs : list Byte.byte) :
  String.length (b64encode bs) = (4 * ((length bs + 2) / 3))%nat
  ∧ Forall (λ c, c ∈ b64_characters) (String.list_ascii_of_string (b64encode bs)).
Proof.
  assert (∀ n bs, (length bs ≤ n)%nat →
    String.length (b64encode bs) = (4 * ((length bs + 2) / 3))%nat
    ∧ Forall (λ c, c ∈ b64_characters) (String.list_ascii_of_string (b64encode bs)))
    as Hgen; [|by apply (Hgen (length bs))].
  clear bs. induction n as [n IH] using lt_wf_ind. intros [|a [|b [|c rest]]] Hlen.
  - split; [done|constructor].
  - cbn [b64encode].
    destruct (b64_digit_character (Byte.to_N a * 65536 / 262144)) as (c1 & -> & ?).
    destruct (b64_digit_character (Byte.to_N a * 65536 / 4096)) as (c2 & -> & ?).
    split; [done|]. simpl. characters.
  - cbn [b64encode].
    destruct (b64_digit_character ((Byte.to_N a * 65536 + Byte.to_N b * 256) / 262144))
      as (c1 & -> & ?).
    destruct (b64_digit_character ((Byte.to_N a * 65536 + Byte.to_N b * 256) / 4096))
      as (c2 & -> & ?).
    destruct (b64_digit_character ((Byte.to_N a * 65536 + Byte.to_N b * 256) / 64))
      as (c3 & -> & ?).
    split; [done|]. simpl. characters.
  - cbn [b64encode].
    set (m := (Byte.to_N a * 65536 + Byte.to_N b * 256 + Byte.to_N c)%N).
    destruct (b64_digit_character (m / 262144)) as (c1 & -> & ?).
    destruct (b64_digit_character (m / 4096)) as (c2 & -> & ?).
    destruct (b64_digit_character (m / 64)) as (c3 & -> & ?).
    destruct (b64_digit_character m) as (c4 & -> & ?).
    simpl in Hlen. destruct (IH (length rest)) with (bs := rest) as [IHlen IHchars];
      [lia|done|].
    split.
    + cbv [String.append]. cbn [String.length]. rewrite IHlen.
      assert (length (a :: b :: c :: rest) + 2 = length rest + 2 + 1 * 3)%nat as ->
        by (simpl; lia).
      rewrite Nat.div_add by lia. lia.
    + cbv [String.append]. cbn [String.list_ascii_of_string]. characters.
Qed.

(** * The API gateway *)

Section gateway_facts.
Import gateway.
Variable lower : string → string.
Implicit Types (σ : gmap string ApiConfig) (reqs : list request).

(** One identifier, one API: once a configuration is registered, the
    registration of any configuration whose name comes to the same
    identifier is refused with 409 and changes nothing; [get_api] keeps
    answering the first configuration, and the other identifiers are not
    concerned. *)
Theorem register_api_conflict σ (first second : ApiConfig) :
  σ !! identifier lower (name first) = None →
  identifier lower (name second) = identifier lower (name first) →
  let id := identifier lower (name first) in
  let '(r1, σ1) := register_api lower first σ in
  let '(r2, σ2) := register_api lower second σ1 in
  r1 = inr {| api_id := id; status := "registered";
              message := "API '" +:+ name first +:+ "' registered successfully" |}
  ∧ r2 = inl (HTTPException HTTP_409_CONFLICT
                ("API with name '" +:+ name second +:+ "' already registered"))
  ∧ σ2 = σ1
  ∧ get_api id σ2 = inr (id, first)
  ∧ ∀ other, other ≠ id → get_api other σ2 = get_api other σ.
Proof.
  intros Hfree Hsame id. unfold register_api. fold id. rewrite Hsame. fold id.
  unfold id in Hfree |- *. rewrite Hfree. cbn [fst snd].
  rewrite lookup_insert_eq. split_and!; [done..| |].
  - unfold get_api. by rewrite lookup_insert_eq.
  - intros other Hother. unfold get_api. by rewrite lookup_insert_ne.
Qed.

(** Registration and removal undo each other: removing an API that was
    registered under a free identifier gives back the registry as it was,
    the identifier is unknown again ([get_api] answers 404) and free for a
    new registration; removing an unknown identifier is a 404 that changes
    nothing. *)
Theorem unregister_api_undoes_register σ (api_config : ApiConfig) :
  σ !! identifier lower (name api_config) = None →
  let id := identifier lower (name api_config) in
  let '(r1, σ1) := register_api lower api_config σ in
  let '(r2, σ2) := unregister_api id σ1 in
  r2 = inr {| api_id := id; status := "unregistered";
              message := "API '" +:+ name api_config +:+ "' unregistered successfully" |}
  ∧ σ2 = σ
  ∧ get_api id σ2 = inl (not_found id)
  ∧ unregister_api id σ2 = (inl (not_found id), σ2)
  ∧ (register_api lower api_config σ2).2 = σ1.
Proof.
  intros Hfree id. unfold register_api, unregister_api. fold id.
  unfold id in Hfree |- *. rewrite Hfree. cbn [fst snd].
  rewrite lookup_insert_eq. cbn [fst snd].
  rewrite delete_insert_id by done.
  unfold get_api. rewrite Hfree. by split_and!.
Qed.

Lemma handle_size σ (req : request) :
  let '(a, σ') := handle lower σ req in
  (size σ + registrations [a] = size σ' + removals [a])%nat.
Proof.
  destruct req as [api_config|api_id|api_id|]; simpl; try done.
  - unfold register_api. destruct (σ !! identifier lower (name api_config)) eqn:Hid;
      simpl; [done|].
    rewrite map_size_insert_None by done. unfold registrations, removals. simpl. lia.
  - unfold unregister_api. destruct (σ !! api_id) eqn:Hid; simpl; [|done].
    unfold registrations, removals. simpl.
    assert (size σ ≠ 0%nat).
    { intros ->%map_size_empty_iff. by rewrite lookup_empty in Hid. }
    rewrite map_size_delete, Hid. lia.
Qed.

Lemma registrations_cons (a : answer) (answers : list answer) :
  registrations (a :: answers) = (registrations [a] + registrations answers)%nat.
Proof. unfold registrations. simpl. by repeat case_match. Qed.

Lemma removals_cons (a : answer) (answers : list answer) :
  removals (a :: answers) = (removals [a] + removals answers)%nat.
Proof. unfold removals. simpl. by repeat case_match. Qed.

Lemma serve_size reqs σ :
  let '(answers, σ') := serve lower σ reqs in
  (size σ + registrations answers = size σ' + removals answers)%nat.
Proof.
  revert σ. induction reqs as [|req reqs IH]; intros σ; [done|].
  cbn [serve]. pose proof (handle_size σ req) as Hreq.
  destruct (handle lower σ req) as [a σ1]. specialize (IH σ1).
  destruct (serve lower σ1 reqs) as [answers σ2].
  rewrite registrations_cons, removals_cons. lia.
Qed.

(** The health check counts what is there: after any sequence of requests
    to an empty gateway, [registered_apis] is the decimal of the number of
    registrations that went through minus the number of removals that went
    through. *)
Theorem health_check_counts reqs :
  let '(answers, σ) := serve lower ∅ reqs in
  (removals answers ≤ registrations answers)%nat
  ∧ health_check σ
    = {| health_status := "healthy"; version := "0.1.0";
         registered_apis := pretty (registrations answers - removals answers)%nat |}.
Proof.
  pose proof (serve_size reqs ∅) as Hsize.
  destruct (serve lower ∅ reqs) as [answers σ]. rewrite map_size_empty in Hsize.
  split; [lia|]. unfold health_check. do 2 f_equal. lia.
Qed.

Lemma append_routes_app (routes documented : list Route) :
  append_routes routes documented = documented ++ routes.
Proof.
  revert documented. induction routes as [|route routes IH]; intros documented; simpl.
  - by rewrite app_nil_r.
  - unfold append_routes in *. simpl. rewrite IH, <-app_assoc. by destruct route.
Qed.

(** The documentation covers the registered APIs and only them, each with
    its name, its base path and all its routes, in their order and with
    their four fields; the rate limit and the authentication settings are
    left out. *)
Theorem get_api_docs_lookup σ (api_id : string) :
  get_api_docs σ !! api_id
  = (λ config, {| doc_name := name config;
                  doc_base_path := base_path config;
                  doc_routes := routes config |}) <$> σ !! api_id.
Proof.
  unfold get_api_docs.
  apply (map_fold_weak_ind (λ docs σ, docs !! api_id = _ <$> σ !! api_id)).
  - by rewrite !lookup_empty.
  - intros id config m docs Hid IH. rewrite !lookup_insert. case_decide; [|done].
    simpl. by rewrite append_routes_app.
Qed.

End gateway_facts.

(** The character that [identifier] puts for [c]. *)
Lemma identifier_char (c : Ascii.ascii) :
  let d := if decide (ascii_lower_char c = " "%char) then "_"%char else ascii_lower_char c in
  d ≠ " "%char ∧ ¬ is_upper d
  ∧ (if decide (ascii_lower_char d = " "%char) then "_"%char else ascii_lower_char d) = d.
Proof.
  destruct c as [[] [] [] [] [] [] [] []];
    (split_and!; [discriminate|unfold is_upper; vm_compute; lia|vm_compute; reflexivity]).
Qed.

(** The identifier of a name in ASCII is in normal form: as long as the
    name, without a space and without an upper-case letter, and its own
    identifier.  So an API named like the identifier of another one gets that
    identifier too. *)
Theorem identifier_normal_form (name : string) :
  is_ascii name →
  let id := gateway.identifier ascii_lower name in
  String.length id = String.length name
  ∧ Forall (λ c, c ≠ " "%char ∧ ¬ is_upper c) (String.list_ascii_of_string id)
  ∧ gateway.identifier ascii_lower id = id.
Proof.
  intros _ id. subst id. unfold gateway.identifier.
  induction name as [|c name (IHlen & IHchars & IHid)]; [by split_and!; [..|constructor|]|].
  destruct (identifier_char c) as (Hspace & Hupper & Hid). simpl. split_and!.
  - by rewrite IHlen.
  - by constructor.
  - by rewrite Hid, IHid.
Qed.

Lemma identifier_normal_form_witness :
  is_ascii "Billing API"
  ∧ let id := gateway.identifier ascii_lower "Billing API" in
    String.length id = String.length "Billing API"
    ∧ Forall (λ c, c ≠ " "%char ∧ ¬ is_upper c) (String.list_ascii_of_string id)
    ∧ gateway.identifier ascii_lower id = id.
Proof.
  assert (is_ascii "Billing API") as Hascii.
  { unfold is_ascii. simpl. repeat (constructor; [vm_compute; lia|]). constructor. }
  split; [exact Hascii|]. exact (identifier_normal_form "Billing API" Hascii).
Defined.

Lemma register_api_conflict_witness :
  let id := gateway.identifier ascii_lower (gateway.name gateway.billing) in
  let '(r1, σ1) := gateway.register_api ascii_lower gateway.billing ∅ in
  let '(r2, σ2) := gateway.register_api ascii_lower gateway.billing_again σ1 in
  r1 = inr {| gateway.api_id := id; gateway.status := "registered";
              gateway.message :=
                "API '" +:+ gateway.name gateway.billing +:+ "' registered successfully" |}
  ∧ r2 = inl (HTTPException HTTP_409_CONFLICT
                ("API with name '" +:+ gateway.name gateway.billing_again
                 +:+ "' already registered"))
  ∧ σ2 = σ1
  ∧ gateway.get_api id σ2 = inr (id, gateway.billing)
  ∧ ∀ other, other ≠ id → gateway.get_api other σ2 = gateway.get_api other ∅.
Proof.
  apply (register_api_conflict ascii_lower ∅ gateway.billing gateway.billing_again);
    vm_compute; reflexivity.
Defined.

Lemma unregister_api_undoes_register_witness :
  let id := gateway.identifier ascii_lower (gateway.name gateway.billing) in
  let '(r1, σ1) := gateway.register_api ascii_lower gateway.billing ∅ in
  let '(r2, σ2) := gateway.unregister_api id σ1 in
  r2 = inr {| gateway.api_id := id; gateway.status := "unregistered";
              gateway.message :=
                "API '" +:+ gateway.name gateway.billing +:+ "' unregistered successfully" |}
  ∧ σ2 = ∅
  ∧ gateway.get_api id σ2 = inl (gateway.not_found id)
  ∧ gateway.unregister_api id σ2 = (inl (gateway.not_found id), σ2)
  ∧ (gateway.register_api ascii_lower gateway.billing σ2).2 = σ1.
Proof.
  apply (unregister_api_undoes_register ascii_lower ∅ gateway.billing).
  vm_compute; reflexivity.
Defined.

(** The gateway at work: two names for one identifier, a removal, and the
    count of the health check. *)
Lemma gateway_example :
  (gateway.serve ascii_lower ∅
     [gateway.RegisterApi gateway.billing; gateway.RegisterApi gateway.billing_again;
      gateway.HealthCheck; gateway.UnregisterApi "billing_api"; gateway.HealthCheck]).1
  = [gateway.Registered
       (inr {| gateway.api_id := "billing_api"; gateway.status := "registered";
               gateway.message := "API 'Billing API' registered successfully" |});
     gateway.Registered
       (inl (HTTPException 409 "API with name 'BILLING api' already registered"));
     gateway.Healthy {| gateway.health_status := "healthy"; gateway.version := "0.1.0";
                        gateway.registered_apis := "1" |};
     gateway.Unregistered
       (inr {| gateway.api_id := "billing_api"; gateway.status := "unregistered";
               gateway.message := "API 'Billing API' unregistered successfully" |});
     gateway.Healthy {| gateway.health_status := "healthy"; gateway.version := "0.1.0";
                        gateway.registered_apis := "0" |}].
Proof. vm_compute. reflexivity. Qed.

(** * The plugin registry *)

Section app_facts.
Import app.
Variable lower : string → string.
Implicit Types (σ : gmap string Plugin).

(** A plugin is read as it was registered: [get_plugin] answers, under the
    identifier that [register_plugin] answered, the very response of the
    registration, and the list of [get_plugins] has it; a second
    registration under a name that comes to the same identifier is refused
    with 409 and changes nothing. *)
Theorem register_plugin_get_plugin σ (plugin again : PluginRegister) :
  let plugin_id := replace " "%char "_"%char (lower (name plugin)) in
  σ !! plugin_id = None →
  replace " "%char "_"%char (lower (name again)) = plugin_id →
  let '(r1, σ1) := register_plugin lower plugin σ in
  let '(r2, σ2) := register_plugin lower again σ1 in
  r1 = inr (response {| registered := plugin; id := plugin_id |} "registered")
  ∧ get_plugin plugin_id σ1 = r1
  ∧ response {| registered := plugin; id := plugin_id |} "registered" ∈ get_plugins σ1
  ∧ r2 = inl (HTTPException HTTP_409_CONFLICT
                ("Plugin with name '" +:+ name again +:+ "' already registered"))
  ∧ σ2 = σ1.
Proof.
  intros plugin_id Hfree Hsame. unfold register_plugin. rewrite Hsame.
  fold plugin_id. rewrite Hfree. cbn [fst snd]. rewrite lookup_insert_eq.
  split_and!; [done| |  |done..].
  - unfold get_plugin. by rewrite lookup_insert_eq.
  - unfold get_plugins. apply list_elem_of_fmap.
    exists (plugin_id, {| registered := plugin; id := plugin_id |}). split; [done|].
    apply elem_of_map_to_list. by rewrite lookup_insert_eq.
Qed.

(** Removing a plugin registered under a free identifier gives back the
    registry as it was: the identifier is unknown again, to [get_plugin]
    and to a second removal, which both answer 404. *)
Theorem unregister_plugin_undoes_register σ (plugin : PluginRegister) :
  let plugin_id := replace " "%char "_"%char (lower (name plugin)) in
  σ !! plugin_id = None →
  let '(r1, σ1) := register_plugin lower plugin σ in
  let '(r2, σ2) := unregister_plugin plugin_id σ1 in
  r2 = inr ("Plugin '" +:+ plugin_id +:+ "' unregistered successfully")
  ∧ σ2 = σ
  ∧ get_plugin plugin_id σ2 = inl (not_found plugin_id)
  ∧ unregister_plugin plugin_id σ2 = (inl (not_found plugin_id), σ2).
Proof.
  intros plugin_id Hfree. unfold register_plugin, unregister_plugin.
  fold plugin_id. rewrite Hfree. cbn [fst snd]. rewrite lookup_insert_eq. cbn [fst snd].
  rewrite delete_insert_id by done. unfold get_plugin. rewrite Hfree. by split_and!.
Qed.

End app_facts.

Lemma register_plugin_get_plugin_witness :
  let plugin_id := replace " "%char "_"%char (ascii_lower (app.name app.mailer)) in
  let '(r1, σ1) := app.register_plugin ascii_lower app.mailer ∅ in
  let '(r2, σ2) := app.register_plugin ascii_lower app.mailer σ1 in
  r1 = inr (app.response {| app.registered := app.mailer; app.id := plugin_id |}
              "registered")
  ∧ app.get_plugin plugin_id σ1 = r1
  ∧ app.response {| app.registered := app.mailer; app.id := plugin_id |} "registered"
    ∈ app.get_plugins σ1
  ∧ r2 = inl (HTTPException HTTP_409_CONFLICT
                ("Plugin with name '" +:+ app.name app.mailer +:+ "' already registered"))
  ∧ σ2 = σ1.
Proof.
  apply (register_plugin_get_plugin ascii_lower ∅ app.mailer app.mailer);
    vm_compute; reflexivity.
Defined.

Lemma unregister_plugin_undoes_register_witness :
  let plugin_id := replace " "%char "_"%char (ascii_lower (app.name app.mailer)) in
  let '(r1, σ1) := app.register_plugin ascii_lower app.mailer ∅ in
  let '(r2, σ2) := app.unregister_plugin plugin_id σ1 in
  r2 = inr ("Plugin '" +:+ plugin_id +:+ "' unregistered successfully")
  ∧ σ2 = ∅
  ∧ app.get_plugin plugin_id σ2 = inl (app.not_found plugin_id)
  ∧ app.unregister_plugin plugin_id σ2 = (inl (app.not_found plugin_id), σ2).
Proof.
  apply (unregister_plugin_undoes_register ascii_lower ∅ app.mailer).
  vm_compute; reflexivity.
Defined.
